(** * The Studentised maximum range distribution: rng_lp, smrng_lp, smrng_lq

    A shallow embedding of the three C translation units

      - rng_lp.c    lower probability of the range of [k] normal variates,
      - smrng_lp.c  lower probability of the Studentised maximum range,
      - smrng_lq.c  lower quantile of the Studentised maximum range,

    and the properties of them that the specification states.

    Numbers.  A C [double] is a real number of [R] and the arithmetic is
    exact: rounding, infinities and NaN are outside the model.  A C [int] is an
    integer of [Z], and so is an [int] product such as [df*df]: overflow of
    [int] is outside the model.  [(double)n] is [IZR n].  The functions of
    <math.h> are the real functions of the same name ([exp], [sqrt], [log]
    for [ln], [fabs] for [Rabs]); [pow] is defined below.  Division follows
    [Rdiv], so [x / 0] is [0] here where C produces an infinity or NaN, and
    [sqrt] of a negative number is [0] here and NaN in C.

    Memory.  An array is a list; a read through a computed index is
    [array_get], which is [None] outside the array (undefined behaviour in C).
    The loops [for (i = 0; i < n; i++)] over a constant table read it with
    [nth], their index ranging over [seq 0 n].

    Linking.  Every translation unit declares the functions of the other units
    it calls as [extern]; the section of a unit takes them as variables, and
    [Module program] links the units. *)

From Stdlib Require Import Reals Lra Lia ZArith List Bool Psatz.
Import ListNotations.

#[local] Open Scope R_scope.

(** ** C comparisons on [double], as booleans *)

Definition Rltb (x y : R) : bool := if Rlt_dec x y then true else false.
Definition Rleb (x y : R) : bool := if Rle_dec x y then true else false.

Notation "x <? y" := (Rltb x y) : R_scope.
Notation "x <=? y" := (Rleb x y) : R_scope.
Notation "x >? y" := (Rltb y x) (at level 70, no associativity) : R_scope.
Notation "x >=? y" := (Rleb y x) (at level 70, no associativity) : R_scope.

(** ** <math.h> *)

Definition log (x : R) : R := ln x.
Definition fabs (x : R) : R := Rabs x.

(** [pow(x, y)]: an integral exponent is repeated multiplication (so
    [pow(0, n)] is [0] for [n > 0] and [pow(x, 0)] is [1]); otherwise
    [exp(y * log x)] for a positive base and [0] for the base [0].  A negative
    base with a fractional exponent is a domain error in C and [0] here. *)
Definition pow (x y : R) : R :=
  if Req_dec_T y (IZR (Int_part y)) then powerRZ x (Int_part y)
  else if 0 <? x then Rpower x y
  else 0.

(** ** Arrays *)

Definition array_get (a : list R) (i : Z) : option R :=
  if (i <? 0)%Z then None else nth_error a (Z.to_nat i).

(** ** The standard normal probability of the specification *)

Module nrml_p_c.

Inductive mode : Type := LOWER | UPPER | CENTRAL.

(** The third argument of [nrml_p] as the callers pass it. *)
Definition mode_of_int (upper : Z) : mode :=
  if (upper =? 0)%Z then LOWER
  else if (upper =? 1)%Z then UPPER
  else CENTRAL.

(** Modelled from the spec: nrml_p.c is not among the sources.  Section 6
    gives [NormalCDF(u, mode)]: LOWER returns P(Z <= u), UPPER returns
    P(Z > u), CENTRAL returns P(Z <= u).  [Phi] is the lower probability
    P(Z <= u) of the standard normal distribution. *)
Definition NormalCDF (Phi : R -> R) (u : R) (m : mode) : R :=
  match m with
  | LOWER => Phi u
  | UPPER => 1 - Phi u
  | CENTRAL => Phi u
  end.

Definition nrml_p (Phi : R -> R) (u : R) (upper : Z) : R :=
  NormalCDF Phi u (mode_of_int upper).

End nrml_p_c.

(** ** rng_lp.c *)

Module rng_lp_c.

Definition BORDER : R := 3.7.
Definition CNST0 : R := 0.398942280401432677939946059934381868.
Definition MAX (X Y : R) : R := if X <? Y then Y else X.
Definition MIN (X Y : R) : R := if X <? Y then X else Y.

(** 20 nodes and weights for Gauss-Legendre quadrature. *)
Definition nd : list R :=
  [ 0.993128599185094924786122388471320278;
    0.963971927277913791267666131197277222;
    0.912234428251325905867752441203298113;
    0.839116971822218823394529061701520685;
    0.746331906460150792614305070355641590;
    0.636053680726515025452836696226285937;
    0.510867001950827098004364050955250998;
    0.373706088715419560672548177024927237;
    0.227785851141645078080496195368574625;
    0.0765265211334973337546404093988382110 ].

Definition wt : list R :=
  [ 0.0176140071391521183118619623518528164;
    0.0406014298003869413310399522749321099;
    0.0626720483341090635695065351870416064;
    0.0832767415767047487247581432220462061;
    0.101930119817240435036750135480349876;
    0.118194531961518417312377377711382287;
    0.131688638449176626898494499748163135;
    0.142096109318382051329298325067164933;
    0.149172986472603746787828737001969437;
    0.152753387130725850698084331955097593 ].

Section with_nrml_p.

(** [extern double nrml_p(double u, int upper)] *)
Variable nrml_p : R -> Z -> R.

(** Normal probability in interval (a, b). *)
Definition nrml_ip (a b : R) : R :=
  let border := BORDER in
  if a >=? b then 0.0
  else if a >? border then nrml_p a 1 - nrml_p b 1
  else if b <? - border then nrml_p b 0 - nrml_p a 0
  else nrml_p b 2 - nrml_p a 2.

(** Upper integral limit for Hartley's formula. *)
Definition ulim (r : R) (k : Z) : R :=
  let k := if (k >? 1000)%Z then 1000%Z else k in
  let ulim13 := 1.403 * sqrt (log (IZR k) + 28.127) in
  let w := log (IZR k) in
  let rmin := exp (2.3641 - 4.669 / w - 9.499 / (w * w)
                   - 13.293 / (w * w * w)) in
  if r <=? rmin then 0.0
  else
    let z :=
      if (k <=? 10)%Z then
        let d1 := 0.02173 * log (8.7 / (IZR k - 1.3)) in
        let d2 := 8.4 + 0.2 * IZR k in
        MIN 1.0 (MAX 0.0 (d1 * (d2 - r)) + 0.199 + 0.134 * r
                 - 0.00500 * r * r)
      else
        let rmin10 := 0.07856 in
        let a1 :=
          if (k <? 30)%Z then 8.889 * log (IZR k - 3.0) + 24.70
          else 54.0 in
        let a2 :=
          if (k <? 30)%Z then 0.06873 * log (IZR k - 7.0) + 0.9245
          else 1.14 in
        let a3 :=
          if (k <? 22)%Z then - 0.6031 * log (IZR k + 6.0) + 1.6877
          else if (k <=? 35)%Z then - 0.31
          else 0.308 * log (IZR k - 5.0) - 1.3576 in
        let w := a1 * pow ((r - rmin + rmin10) / (42.0 - rmin + rmin10)) a2
                 + a3 in
        if w >? 9.0 then 1.0 else 0.199 + 0.134 * w - 0.00500 * w * w in
    ulim13 * z.

(** Integrand function. *)
Definition f (x r : R) (k : Z) : R :=
  exp (- 0.5 * x * x) * pow (nrml_ip (x - r) x) (IZR (k - 1)).

(** The body of [for (ix = 0; ix < 10; ix++)]. *)
Definition quad_step (cntr wdth r : R) (k : Z) (p : R) (ix : nat) : R :=
  let x := wdth * nth ix nd 0 in
  p + nth ix wt 0 * (f (cntr - x) r k + f (cntr + x) r k).

Definition rng_lp (r : R) (k : Z) : R :=
  let p := 0.0 in
  if r <=? 0.0 then 0.0
  else if (k =? 2)%Z then 2.0 * nrml_p (r / sqrt 2.0) 2
  else
    let xu := ulim r k in
    let p :=
      if xu >? 0.5 * r then
        let wdth := 0.5 * (xu - 0.5 * r) in
        let cntr := 0.5 * (xu + 0.5 * r) in
        let p := fold_left (quad_step cntr wdth r k) (seq 0 10) p in
        p * (2.0 * IZR k * wdth * CNST0)
      else p in
    p + pow (2.0 * nrml_p (0.5 * r) 2) (IZR k).

End with_nrml_p.

End rng_lp_c.

(** ** Hartley's formula as the specification words it *)

Module hartley.

(** The normal density, with the constant of rng_lp.c for 1/sqrt(2 pi). *)
Definition phi (x : R) : R := rng_lp_c.CNST0 * exp (- (x * x) / 2).

(** The integrand of the correction term,
    [phi(x) (Phi(x) - Phi(x - r))^(k-1)]. *)
Definition integrand (Phi : R -> R) (r : R) (k : Z) (x : R) : R :=
  phi x * powerRZ (Phi x - Phi (x - r)) (k - 1).

(** Midpoint-centred 20-node (10-pair symmetric) Gauss-Legendre quadrature
    of [g] over [[a, b]]: the half width times the sum over the ten pairs
    of the weight times the values of [g] at the midpoint minus and plus
    the half width times the node. *)
Definition gauss_legendre_20 (g : R -> R) (a b : R) : R :=
  let c := (a + b) / 2 in
  let h := (b - a) / 2 in
  h * fold_right Rplus 0
        (map (fun i => nth i rng_lp_c.wt 0
                       * (g (c - h * nth i rng_lp_c.nd 0)
                          + g (c + h * nth i rng_lp_c.nd 0)))
           (seq 0 10)).

(** The first term as the specification writes it, [2 Phi(r/2)^k]. *)
Definition first_term_as_written (Phi : R -> R) (r : R) (k : Z) : R :=
  2 * powerRZ (Phi (r / 2)) k.

End hartley.

(** ** smrng_lp.c *)

Module smrng_lp_c.

Definition LOGSQRTPI : R := 0.572364942924700087071713675676529356.

(** Upper limit of max range with approx upper prob=0.5e-13. *)
Definition rupper (k nrng : Z) : R :=
  let rn1 := 0.42 * pow (log (IZR k - 0.5)) 0.9 + 10.465 in
  if (nrng <=? 1)%Z then rn1
  else
    let rn100 := 0.2866 * pow (log (IZR k - 0.9)) 1.05 + 11.451 in
    0.2273 * (rn100 - rn1) * pow (log (IZR nrng)) 0.97 + rn1.

(** Lower limit of max range with approx lower prob=0.5e-13. *)
Definition rlower (k nrng : Z) : R :=
  if (k <=? 40)%Z then
    let z1 := - 27.12 / pow (log (IZR k + 0.5)) 2.1 + 1.8800 in
    if (nrng <=? 1)%Z then exp z1
    else
      let z100 := - 5.749 / pow (log (IZR k)) 0.12 + 6.4651 in
      let dk := if (k <? 8)%Z then 2.934 / (IZR k + 1.0) + 0.522
                else 0.86 - 0.0015 * IZR k in
      let bk := if (k <? 8)%Z then 7.88 / (IZR k + 2.0) + 0.112
                else 16.875 / (IZR k + 10.0) - 0.0375 in
      let x1 := 1.0 / pow (log (1.0 + dk)) bk in
      let x100 := 1.0 / pow (log (100.0 + dk)) bk in
      let x := 1.0 / pow (log (IZR nrng + dk)) bk in
      exp ((z100 - z1) / (x100 - x1) * (x - x1) + z1)
  else
    let z1 := 449.4 * pow (log (IZR k + 10.0)) 0.012 - 455.6678 in
    if (nrng <=? 1)%Z then z1
    else
      let z100 := 3.149 * pow (log (IZR k + 1.0)) 0.48 - 1.2017 in
      let bk := if (k <=? 55)%Z then - 0.08478 * log (IZR k) + 0.5738
                else 0.03220 * log (IZR k) + 0.1050 in
      let x1 := pow (log 2.0) bk in
      let x100 := pow (log 101.0) bk in
      let x := pow (log (IZR nrng + 1.0)) bk in
      (z100 - z1) / (x100 - x1) * (x - x1) + z1.

(** Upper limit for chi^2(df) with approx upper prob=0.5e-13.  The table
    [first] is read at [df - 1]. *)
Definition chi2u (df : Z) : option R :=
  let first := [56.73; 61.26; 65.01; 68.38; 71.50] in
  let ddf := 2.0 / 9.0 / IZR df in
  if (df <=? 5)%Z then array_get first (df - 1)
  else
    let w := if (df <=? 20)%Z
             then 7.391 - 3.050 / IZR df + 5.208 / IZR (df * df)
             else 7.441 - 5.209 / IZR df + 29.27 / IZR (df * df) in
    Some (IZR df * pow (w * sqrt ddf + (1.0 - ddf)) 3.0).

(** Lower limit for chi^2(df) with approx lower prob=0.5e-13. *)
Definition chi2l (df : Z) : option R :=
  let first := [3.926e-27; 1.0e-13; 3.281e-09; 6.324e-07; 1.546e-05] in
  let ddf := 2.0 / 9.0 / IZR df in
  if (df <=? 5)%Z then array_get first (df - 1)
  else if (df <=? 20)%Z then
    let w := - 8.645 - 70.72 / IZR df + 77.47 / IZR (df * df) in
    Some (IZR df * exp (w / sqrt (0.5 * IZR df) - 1.0 / IZR df))
  else
    let w := - 7.451 + 10.07 / IZR df + 82.83 / IZR (df * df) in
    Some (IZR df * pow (w * sqrt ddf + (1.0 - ddf)) 3.0).

(** [for (n = df - 2; n > 0; n -= 2) g += log(0.5*n);] with the number of
    iterations bounded by [fuel]. *)
Fixpoint coef_loop (fuel : nat) (n : Z) (g : R) : R :=
  match fuel with
  | O => g
  | S fuel' =>
      if (n >? 0)%Z then coef_loop fuel' (n - 2) (g + log (0.5 * IZR n))
      else g
  end.

(** Coefficient of chi distribution (not chi^2 distribution). *)
Definition coef (df : Z) : R :=
  let g := if (Z.rem df 2 =? 1)%Z then LOGSQRTPI else 0.0 in
  let g := coef_loop (Z.to_nat df) (df - 2) g in
  2.0 * exp (0.5 * IZR df * (log (0.5 * IZR df) - 1.0) - g).

(** 40 nodes and weights for Gauss-Legendre quadrature. *)
Definition nd : list R :=
  [ 0.998237709710559200349622702420586492;
    0.990726238699457006453054352221372155;
    0.977259949983774262663370283712903807;
    0.957916819213791655804540999452759285;
    0.932812808278676533360852166845205716;
    0.902098806968874296728253330868493104;
    0.865959503212259503820781808354619964;
    0.824612230833311663196320230666098774;
    0.778305651426519387694971545506494848;
    0.727318255189927103280996451754930549;
    0.671956684614179548379354514961494110;
    0.612553889667980237952612450230694877;
    0.549467125095128202075931305529517970;
    0.483075801686178712908566574244823005;
    0.413779204371605001524879745803713683;
    0.341994090825758473007492481179194310;
    0.268152185007253681141184344808596183;
    0.192697580701371099715516852065149895;
    0.116084070675255208483451284408024114;
    0.0387724175060508219331934440246232947 ].

Definition wt : list R :=
  [ 0.00452127709853319125847173287818533273;
    0.0104982845311528136147421710672796524;
    0.0164210583819078887128634848823639273;
    0.0222458491941669572615043241842085732;
    0.0279370069800234010984891575077210773;
    0.0334601952825478473926781830864108490;
    0.0387821679744720176399720312904461623;
    0.0438709081856732719916746860417154958;
    0.0486958076350722320614341604481463881;
    0.0532278469839368243549964797722605046;
    0.0574397690993915513666177309104259856;
    0.0613062424929289391665379964083985959;
    0.0648040134566010380745545295667527300;
    0.0679120458152339038256901082319239860;
    0.0706116473912867796954836308552868324;
    0.0728865823958040590605106834425178359;
    0.0747231690579682642001893362613246732;
    0.0761103619006262423715580759224948230;
    0.0770398181642479655883075342838102485;
    0.0775059479784248112637239629583263270 ].

(** One pass of the loop [for ( ; isw < 2; isw++)]: the switch and the
    limits it integrated between.  The passes of a call are kept as a record
    of what the loop did; the result does not depend on them. *)
Record pass : Type := mkpass { pass_isw : Z; pass_sl : R; pass_su : R }.

Section with_rng_lp.

(** [extern double rng_lp(double r, int k)] *)
Variable rng_lp : R -> Z -> R.

(** Integrand function. *)
Definition f (s : R) (k df nrng : Z) (q : R) (isw : Z) : R :=
  let y := exp ((IZR df - 1.0) * log s + 0.5 * IZR df * (1.0 - s * s)) in
  if (isw =? 0)%Z then y
  else y * pow (rng_lp (s * q) k) (IZR nrng).

(** The body of [for (i = 0; i < 20; i++)]. *)
Definition quad_step (cntr wdth : R) (k df nrng : Z) (q : R) (isw : Z)
    (p1 : R) (i : nat) : R :=
  let x := wdth * nth i nd 0 in
  p1 + nth i wt 0 * (f (cntr - x) k df nrng q isw
                     + f (cntr + x) k df nrng q isw).

(** The variables the loop [for ( ; isw < 2; isw++)] reads and writes. *)
Record vars : Type := mkvars {
  v_isw : Z; v_sl : R; v_su : R; v_p : R; v_passes : list pass
}.

(** One pass of the loop; [sll] and [ruq] are not written in the loop. *)
Definition loop_body (k df nrng : Z) (q sll ruq : R) (v : vars) : vars :=
  let isw := v_isw v in
  let sl := v_sl v in
  let su := v_su v in
  let p1 := 0.0 in
  let cntr := 0.5 * (sl + su) in
  let wdth := 0.5 * (su - sl) in
  let p1 := fold_left (quad_step cntr wdth k df nrng q isw) (seq 0 20) p1 in
  let p := v_p v + wdth * p1 in
  let passes := v_passes v ++ [mkpass isw sl su] in
  if (isw =? 0)%Z then mkvars (isw + 1) sll ruq p passes
  else mkvars (isw + 1) sl su p passes.

(** [for ( ; isw < 2; isw++)], at most [fuel] passes. *)
Fixpoint loop (fuel : nat) (k df nrng : Z) (q sll ruq : R) (v : vars)
    : vars :=
  match fuel with
  | O => v
  | S fuel' =>
      if (v_isw v <? 2)%Z
      then loop fuel' k df nrng q sll ruq (loop_body k df nrng q sll ruq v)
      else v
  end.

(** What a call returns: on [Done] the value of an early [return], on
    [Integrated] the variables after the loop and the coefficient. *)
Inductive run : Type :=
| Done (y : R)
| Integrated (cnst : R) (v : vars).

(** The body of [smrng_lp]; [None] is a read outside the table [first]
    of [chi2l] or [chi2u].  [isw] is [0] at its declaration, so the loop
    runs [2 - isw] times at most.  [sll] is not initialised on the
    path where [ruq >= su]; it is not read there, and is [0] here. *)
Definition smrng_lp_run (q : R) (k df nrng : Z) : option run :=
  let p := 0.0 in
  let isw := 0%Z in
  if q <=? 0.0 then Some (Done 0.0)
  else if (df <=? 0)%Z then Some (Done (pow (rng_lp q k) (IZR nrng)))
  else
    match chi2l df with
    | None => None
    | Some c2l =>
        let sl := sqrt (c2l / IZR df) in
        match chi2u df with
        | None => None
        | Some c2u =>
            let su := sqrt (c2u / IZR df) in
            let cnst := coef df in
            let rlq := rlower k nrng / q in
            if rlq >=? su then Some (Done 0.0)
            else
              let sl := if rlq >? sl then rlq else sl in
              let ruq := rupper k nrng / q in
              if ruq <=? sl then Some (Done 1.0)
              else
                let v :=
                  if ruq <? su then mkvars isw ruq su p []
                  else mkvars 1 sl su p [] in
                let sll := if ruq <? su then sl else 0 in
                Some (Integrated cnst
                        (loop (Z.to_nat (2 - v_isw v)) k df nrng q sll
                           ruq v))
        end
    end.

Definition smrng_lp (q : R) (k df nrng : Z) : option R :=
  match smrng_lp_run q k df nrng with
  | None => None
  | Some (Done y) => Some y
  | Some (Integrated cnst v) => Some (cnst * v_p v)
  end.

(** The passes of the integration loop of a call, in the order they ran. *)
Definition smrng_lp_passes (q : R) (k df nrng : Z) : list pass :=
  match smrng_lp_run q k df nrng with
  | Some (Integrated _ v) => v_passes v
  | _ => []
  end.

(** *** Vocabulary of the properties *)

(** What one pass of the loop adds to [p]: the 40-node Gauss-Legendre sum
    of the integrand with the switch [isw] between [sl] and [su]. *)
Definition segment (k df nrng : Z) (q : R) (isw : Z) (sl su : R) : R :=
  let cntr := 0.5 * (sl + su) in
  let wdth := 0.5 * (su - sl) in
  wdth * fold_left (quad_step cntr wdth k df nrng q isw) (seq 0 20) 0.0.


End with_rng_lp.

End smrng_lp_c.

(** ** smrng_lq.c *)

Module smrng_lq_c.

(** accuracy of Studentised range probabilities *)
Definition YEPS : R := 1.0e-12.

(** The local variables of [smrng_lq] that live across statements, the
    counter [*itr], and [calls]: the abscissas [smrng_lp] was called at, the
    latest first.  [calls] is a record of what the run did; nothing is
    computed from it.  [x] and [y] are not initialised before the [for] loop
    and are [0] here until its first iteration assigns them. *)
Record vars : Type := mkvars {
  x1 : R; y1 : R; x2 : R; y2 : R; x3 : R; y3 : R;
  x : R; y : R; itr : Z; calls : list R
}.

(** What the caller receives: the returned value, [*itr], and the record of
    the calls. *)
Record result : Type := mkresult {
  quantile : R; iterations : Z; evaluations : list R
}.

Section with_smrng_lp.

(** [extern double smrng_lp(double q, int k, int df, int nrng)] *)
Variable smrng_lp : R -> Z -> Z -> Z -> R.

(** The arguments of [smrng_lq]. *)
Variable p : R.
Variables k df nrng : Z.
Variables xeps peps : R.

(** [smrng_lp(q, k, df, nrng)] followed by [( *itr)++]. *)
Definition call (q : R) (v : vars) : R * vars :=
  (smrng_lp q k df nrng,
   mkvars (x1 v) (y1 v) (x2 v) (y2 v) (x3 v) (y3 v) (x v) (y v)
     (itr v + 1) (q :: calls v)).

(** The body of [while (y2 < p)]. *)
Definition while_body (v : vars) : vars :=
  let x1' := x2 v in
  let y1' := y2 v in
  let x2' := x2 v * 2.0 in
  let (y2', v) := call x2' v in
  mkvars x1' y1' x2' y2' (x3 v) (y3 v) (x v) (y v) (itr v) (calls v).

(** [while (y2 < p)], [None] when the condition still holds after [fuel]
    passes. *)
Fixpoint while_loop (fuel : nat) (v : vars) : option vars :=
  if y2 v <? p then
    match fuel with
    | O => None
    | S fuel' => while_loop fuel' (while_body v)
    end
  else Some v.

(** Lines 68 to 81: the bracket before the [for] loop. *)
Definition bracketing (fuel : nat) : option vars :=
  let v := mkvars 0.0 0.0 2.0 0.0 0 0 0 0 0 [] in
  let (y2', v) := call (x2 v) v in
  let v := mkvars (x1 v) (y1 v) (x2 v) y2' (x3 v) (y3 v) (x v) (y v)
             (itr v) (calls v) in
  match while_loop fuel v with
  | None => None
  | Some v =>
      Some (mkvars (x1 v) (y1 v) (x2 v) (y2 v) (x2 v) (y2 v) (x v) (y v)
              (itr v) (calls v))
  end.

Definition bisection (v : vars) : R := 0.5 * (x1 v + x2 v).

(** The curvature [a] of the quadratic interpolation. *)
Definition curvature (v : vars) : R :=
  if (fabs (x1 v - x3 v) <? xeps) || (fabs (x2 v - x3 v) <? xeps) then 0.0
  else ((y3 v - y1 v) / (x3 v - x1 v) - (y2 v - y1 v) / (x2 v - x1 v))
       / (x3 v - x2 v).

(** The root of the quadratic interpolation, before it is compared with
    the bracket. *)
Definition interpolation (v : vars) : R :=
  let a := curvature v in
  let b := (y2 v - y1 v) / (x2 v - x1 v) - a * (x2 v - x1 v) in
  if a >? 0.0 then
    x1 v + (- b + sqrt (b * b + 4.0 * a * (p - y1 v))) / (2.0 * a)
  else
    x1 v + 2.0 * (p - y1 v) / (b + sqrt (b * b + 4.0 * a * (p - y1 v))).

(** Lines 85 to 101: the trial point of iteration [i]. *)
Definition trial (i : Z) (v : vars) : R :=
  if (Z.rem i 2 =? 1)%Z || (fabs (y2 v - y1 v) <? YEPS) then bisection v
  else
    let x := interpolation v in
    if (x <? x1 v) || (x >? x2 v) then bisection v else x.

(** Lines 85 to 104: the trial point and its probability. *)
Definition evaluate (i : Z) (v : vars) : vars :=
  let x' := trial i v in
  let (y', v) := call x' v in
  mkvars (x1 v) (y1 v) (x2 v) (y2 v) (x3 v) (y3 v) x' y' (itr v) (calls v).

(** Line 105: the condition of the [break]. *)
Definition converged (v : vars) : bool :=
  (fabs (x2 v - x1 v) <? xeps) && (fabs (y v - p) <? peps).

(** Lines 108 to 119: the update of the bracket. *)
Definition update (v : vars) : vars :=
  if y v >=? p then
    mkvars (x1 v) (y1 v) (x v) (y v) (x2 v) (y2 v) (x v) (y v)
      (itr v) (calls v)
  else
    mkvars (x v) (y v) (x2 v) (y2 v) (x1 v) (y1 v) (x v) (y v)
      (itr v) (calls v).

(** [for (i = ...; i < 201; i++)] from the value [i] on, [n] iterations at
    most. *)
Fixpoint for_loop (n : nat) (i : Z) (v : vars) : vars :=
  match n with
  | O => v
  | S n' =>
      if (i <? 201)%Z then
        let v := evaluate i v in
        if converged v then v
        else for_loop n' (i + 1) (update v)
      else v
  end.

(** [smrng_lq], with [fuel] bounding the passes of the [while] loop.  The
    [for] loop runs from [i = 1] and so 200 times at most. *)
Definition smrng_lq (fuel : nat) : option result :=
  if p <=? 0.0 then Some (mkresult 0.0 0 [])
  else if p >=? 1.0 then Some (mkresult 1.0e+99 0 [])
  else
    match bracketing fuel with
    | None => None
    | Some v =>
        let v := for_loop 200 1 v in
        Some (mkresult (x v) (itr v) (calls v))
    end.

(** *** Vocabulary of the properties *)

(** The variables after [m] iterations of the [for] loop, from iteration
    [i] on, none of which left the loop at its [break]. *)
Fixpoint rounds (m : nat) (i : Z) (v : vars) : vars :=
  match m with
  | O => v
  | S m' => rounds m' (i + 1) (update (evaluate i v))
  end.

(** The variables at the test of line 105 in iteration [j] (counted from
    1) of the [for] loop entered with [v], when no earlier iteration left
    the loop. *)
Definition tested (v : vars) (j : nat) : vars :=
  evaluate (Z.of_nat j) (rounds (j - 1) 1 v).

(** [*itr] is the number of calls of [smrng_lp] (line 14). *)
Definition counted (v : vars) : Prop :=
  itr v = Z.of_nat (length (calls v)).

(** The [for] loop entered with [v] ends in its iteration [j]: no earlier
    test of line 105 held, and the test of iteration [j] holds or [j] is the
    last iteration. *)
Definition stops_at (v : vars) (j : nat) : Prop :=
  (forall i, (1 <= i < j)%nat -> converged (tested v i) = false) /\
  (converged (tested v j) = true \/ j = 200%nat).

(** The comment of lines 66 and 67, with what [y1] and [y2] are. *)
Definition bracket_inv (v : vars) : Prop :=
  x1 v < x2 v /\
  y1 v < p <= y2 v /\
  (y1 v = smrng_lp (x1 v) k df nrng \/ (x1 v = 0 /\ y1 v = 0)) /\
  y2 v = smrng_lp (x2 v) k df nrng.

(** What holds of the bracket inside the [while] loop, where [y2] need
    not have reached [p]. *)
Definition bracket_pre (v : vars) : Prop :=
  x1 v < x2 v /\ 0 < x2 v /\ y1 v < p /\
  (y1 v = smrng_lp (x1 v) k df nrng \/ (x1 v = 0 /\ y1 v = 0)) /\
  y2 v = smrng_lp (x2 v) k df nrng.

End with_smrng_lp.

End smrng_lq_c.

(** ** smrng_lq_tst.c *)

Module smrng_lq_tst_c.

(** What [main] does: it leaves with [exit(1)] after the usage line, or
    prints one or two lines [itr = ..., quantile = ...], kept here as the
    pairs of the numbers printed, and leaves with [exit(0)]; [Hangs] is a
    call of [smrng_lq] that does not return. *)
Inductive outcome : Type :=
| Usage
| Printed (lines : list (Z * R))
| Hangs.

Section with_smrng_lq.

(** [extern double smrng_lq(double p, int k, int df, int nrng, double xeps,
    double peps, int *itr)]: the value and [*itr], or [None] when the call
    does not return. *)
Variable smrng_lq : R -> Z -> Z -> Z -> R -> R -> option (R * Z).

(** [main], with [a1], [a2], [a4] for [atoi] of [argv[1]], [argv[2]],
    [argv[4]] and [a3], [a5] for [atof] of [argv[3]], [argv[5]]; an argument
    beyond [argc] is not read. *)
Definition main (argc : Z) (a1 a2 : Z) (a3 : R) (a4 : Z) (a5 : R) : outcome :=
  let nrng := 1%Z in
  let xeps := 1.0e-8 in
  if (argc <? 4)%Z then Usage
  else
    let k := a1 in
    let df := a2 in
    let alpha := a3 in
    let nrng := if (argc >=? 5)%Z then a4 else nrng in
    let xeps := if (argc >=? 6)%Z then a5 else xeps in
    let peps := alpha * xeps in
    match smrng_lq (1.0 - alpha) k df nrng xeps peps with
    | None => Hangs
    | Some (x, itr) =>
        let line1 := (itr, x) in
        if (df >? 240)%Z then
          match smrng_lq (1.0 - alpha) k 0 nrng xeps peps with
          | None => Hangs
          | Some (x0, _) =>
              match smrng_lq (1.0 - alpha) k 240 nrng xeps peps with
              | None => Hangs
              | Some (x1, itr) =>
                  let x := (x1 - x0) * (240.0 / IZR df) + x0 in
                  Printed [line1; (itr, x)]
              end
          end
        else Printed [line1]
    end.

End with_smrng_lq.

End smrng_lq_tst_c.

(** ** smrng_tbl.c *)

Module smrng_tbl_c.

Definition EPS : R := 1.0e-8.

(** An [int] array with automatic storage: a cell is [None] until it is
    written. *)
Definition int_array : Type := list (option Z).

Fixpoint set_nth (a : int_array) (n : nat) (v : Z) : option int_array :=
  match a, n with
  | [], _ => None
  | _ :: a', O => Some (Some v :: a')
  | c :: a', S n' =>
      match set_nth a' n' v with
      | None => None
      | Some a'' => Some (c :: a'')
      end
  end.

(** [a[i] = v]; [None] is a write outside the array. *)
Definition store (a : int_array) (i v : Z) : option int_array :=
  if (i <? 0)%Z then None else set_nth a (Z.to_nat i) v.

(** The value of [a[i]]; [None] is a read outside the array or of a cell
    never written. *)
Definition load (a : int_array) (i : Z) : option Z :=
  if (i <? 0)%Z then None
  else match nth_error a (Z.to_nat i) with
       | Some (Some v) => Some v
       | _ => None
       end.

(** A read of the initialised table [kupper]. *)
Definition load_const (a : list Z) (i : Z) : option Z :=
  if (i <? 0)%Z then None else nth_error a (Z.to_nat i).

Definition kupper : list Z := [50; 100; 200; 500; 1000]%Z.

(** [for ( ; j <= ke; j++) k[j] = j + 2;], [n] iterations at most; the
    array and [j] after the loop. *)
Fixpoint fill_k (n : nat) (j ke : Z) (k : int_array)
    : option (int_array * Z) :=
  match n with
  | O => Some (k, j)
  | S n' =>
      if (j <=? ke)%Z then
        match store k j (j + 2) with
        | None => None
        | Some k' => fill_k n' (j + 1) ke k'
        end
      else Some (k, j)
  end.

(** [for ( ; j <= ke; j++) k[j] = kupper[j - 19];] *)
Fixpoint fill_kupper (n : nat) (j ke : Z) (k : int_array)
    : option (int_array * Z) :=
  match n with
  | O => Some (k, j)
  | S n' =>
      if (j <=? ke)%Z then
        match load_const kupper (j - 19) with
        | None => None
        | Some v =>
            match store k j v with
            | None => None
            | Some k' => fill_kupper n' (j + 1) ke k'
            end
        end
      else Some (k, j)
  end.

(** Lines 564 to 574: the array [k] and [ke], from [a1 = atoi(argv[1])]. *)
Definition k_grid (a1 : Z) : option (int_array * Z) :=
  let k := repeat None 99 in
  let ke := (a1 - 2)%Z in
  if (ke <=? 98)%Z then
    match fill_k (Z.to_nat (ke + 1)) 0 ke k with
    | None => None
    | Some (k, _) => Some (k, ke)
    end
  else
    let ke := 23%Z in
    match fill_k 19 0 18 k with
    | None => None
    | Some (k, j) =>
        match fill_kupper 5 j ke k with
        | None => None
        | Some (k, _) => Some (k, ke)
        end
    end.

(** Lines 580 to 584: [index], from [argc] and [a3 = atoi(argv[3])]. *)
Definition index_of (argc a3 : Z) : Z :=
  let index := 1%Z in
  if (argc >=? 4)%Z then (if (a3 =? 1)%Z then a3 else 2%Z) else index.

(** [for (i = 0; i < 20*index; i++) df[i] = i + 1;] *)
Fixpoint fill_df (n : nat) (i index : Z) (df : int_array)
    : option int_array :=
  match n with
  | O => Some df
  | S n' =>
      if (i <? 20 * index)%Z then
        match store df i (i + 1) with
        | None => None
        | Some df' => fill_df n' (i + 1) index df'
        end
      else Some df
  end.

(** [for (i = 0; i < 5; i++) df[i + 20*index] = 120*index/(5 - i);] *)
Fixpoint fill_df_tail (n : nat) (i index : Z) (df : int_array)
    : option int_array :=
  match n with
  | O => Some df
  | S n' =>
      if (i <? 5)%Z then
        match store df (i + 20 * index) (Z.quot (120 * index) (5 - i)) with
        | None => None
        | Some df' => fill_df_tail n' (i + 1) index df'
        end
      else Some df
  end.

(** Lines 585 to 589: the array [df]. *)
Definition df_grid (index : Z) : option int_array :=
  let df := repeat None 106 in
  match fill_df (Z.to_nat (20 * index)) 0 index df with
  | None => None
  | Some df =>
      match fill_df_tail 5 0 index df with
      | None => None
      | Some df => store df (5 + 20 * index) 0
      end
  end.

(** The arguments [k[j]] and [df[i]] of the calls of [smrng_lq] of lines 603
    to 610, in the order of the calls: [i] from 0 below [6 + 20*index], and
    for each [i], [j] from 0 to [ke]. *)
Definition row (k : int_array) (ke : Z) (dfi : option Z)
    : list (option (Z * Z)) :=
  map (fun j => match load k (Z.of_nat j), dfi with
                | Some kj, Some d => Some (kj, d)
                | _, _ => None
                end)
    (seq 0 (Z.to_nat (ke + 1))).

Definition requests (k df : int_array) (ke index : Z)
    : list (option (Z * Z)) :=
  flat_map (fun i => row k ke (load df (Z.of_nat i)))
    (seq 0 (Z.to_nat (6 + 20 * index))).

(** What [main] does up to its printing: [Usage] is the [exit(1)] of line
    561, [Fault] a write outside [k] or [df], and [Table] carries the value
    of [k[0]] that line 597 prints, the arguments [p], [nrng], [xeps], [peps]
    common to the calls of [smrng_lq], and the [(k, df)] of each call, [None]
    standing for a value read outside an array or from a cell never
    written. *)
Inductive outcome : Type :=
| Usage
| Fault
| Table (k0 : option Z) (p : R) (nrng : Z) (xeps peps : R)
    (calls : list (option (Z * Z))).

(** [main], with [a1], [a3], [a4] for [atoi] of [argv[1]], [argv[3]],
    [argv[4]] and [a2] for [atof] of [argv[2]]. *)
Definition main (argc : Z) (a1 : Z) (a2 : R) (a3 a4 : Z) : outcome :=
  let nrng := 1%Z in
  if (argc <? 3)%Z then Usage
  else
    match k_grid a1 with
    | None => Fault
    | Some (k, ke) =>
        let alpha := a2 in
        let xeps := EPS in
        let peps := alpha * EPS in
        let index := index_of argc a3 in
        match df_grid index with
        | None => Fault
        | Some df =>
            let nrng := if (argc >=? 5)%Z then a4 else nrng in
            Table (load k 0) (1.0 - alpha) nrng xeps peps
              (requests k df ke index)
        end
    end.



End smrng_tbl_c.

(** ** The three units linked *)

Module program.

Section with_nrml_p.

Variable nrml_p : R -> Z -> R.

Definition rng_lp : R -> Z -> R := rng_lp_c.rng_lp nrml_p.

Definition smrng_lp (q : R) (k df nrng : Z) : option R :=
  smrng_lp_c.smrng_lp rng_lp q k df nrng.

Definition smrng_lp_passes (q : R) (k df nrng : Z)
    : list smrng_lp_c.pass :=
  smrng_lp_c.smrng_lp_passes rng_lp q k df nrng.

(** [smrng_lp] as [smrng_lq] calls it.  The call of a [double] function has
    a value whenever it reads no table out of bounds, which is always; the
    [0] of the other case is never taken. *)
Definition smrng_lp_value (q : R) (k df nrng : Z) : R :=
  match smrng_lp q k df nrng with
  | Some y => y
  | None => 0
  end.

Definition smrng_lq (p : R) (k df nrng : Z) (xeps peps : R) (fuel : nat)
    : option smrng_lq_c.result :=
  smrng_lq_c.smrng_lq smrng_lp_value p k df nrng xeps peps fuel.

End with_nrml_p.

End program.


(** ** Sample inputs *)

Module sample.

(** A probability function to run [smrng_lq] on: [q / (q + 4)], which is 0
    at 0, increases, and tends to 1. *)
Definition lp (q : R) (k df nrng : Z) : R := q / (q + 4).

(** A lower probability to run [rng_lp] on under the contract of the
    specification: [1/2 + u / (2 (1 + |u|))], which increases from 0 to 1
    and is 1/2 at 0. *)
Definition Phi (u : R) : R := 1 / 2 + u / (2 * (1 + Rabs u)).

(** The variables with which [smrng_lq] enters its [for] loop on [lp] for
    [p = 0.4]: [x2] has been doubled once. *)
Definition v0 (k df nrng : Z) : smrng_lq_c.vars :=
  smrng_lq_c.mkvars 2.0 (lp 2.0 k df nrng)
    (2.0 * 2.0) (lp (2.0 * 2.0) k df nrng)
    (2.0 * 2.0) (lp (2.0 * 2.0) k df nrng)
    0 0 2 [2.0 * 2.0; 2.0].

End sample.

(** * Properties *)

(** ** Comparisons *)

Lemma Rltb_true (x y : R) : (x <? y) = true <-> x < y.
Proof. unfold Rltb. destruct (Rlt_dec x y); split; intros; try easy. Qed.

Lemma Rltb_false (x y : R) : (x <? y) = false <-> y <= x.
Proof.
  unfold Rltb. destruct (Rlt_dec x y); split; intros; try easy; lra.
Qed.

Lemma Rleb_true (x y : R) : (x <=? y) = true <-> x <= y.
Proof. unfold Rleb. destruct (Rle_dec x y); split; intros; try easy. Qed.

Lemma Rleb_false (x y : R) : (x <=? y) = false <-> y < x.
Proof.
  unfold Rleb. destruct (Rle_dec x y); split; intros; try easy; lra.
Qed.

(** [Rcmp] turns every boolean comparison of the context and the goal into the
    order fact it stands for. *)
Ltac Rcmp :=
  repeat match goal with
  | H : (_ <? _) = true |- _ => apply Rltb_true in H
  | H : (_ <? _) = false |- _ => apply Rltb_false in H
  | H : (_ <=? _) = true |- _ => apply Rleb_true in H
  | H : (_ <=? _) = false |- _ => apply Rleb_false in H
  | |- (_ <? _) = true => apply Rltb_true
  | |- (_ <? _) = false => apply Rltb_false
  | |- (_ <=? _) = true => apply Rleb_true
  | |- (_ <=? _) = false => apply Rleb_false
  end.


(** [Rdecide s] settles the comparisons of concrete numbers in the goal, each
    by the solver [s]. *)
Ltac Rdecide s :=
  repeat match goal with
  | |- context [Rltb ?a ?b] =>
      first [ replace (Rltb a b) with true
                by (symmetry; apply Rltb_true; s)
            | replace (Rltb a b) with false
                by (symmetry; apply Rltb_false; s) ]
  | |- context [Rleb ?a ?b] =>
      first [ replace (Rleb a b) with true
                by (symmetry; apply Rleb_true; s)
            | replace (Rleb a b) with false
                by (symmetry; apply Rleb_false; s) ]
  end.

(** Order facts between concrete numbers, absolute values included. *)
Ltac Rabs_lra :=
  unfold fabs, Rabs; repeat destruct (Rcase_abs _); lra.

(** ** <math.h> *)

Lemma Int_part_IZR (n : Z) : Int_part (IZR n) = n.
Proof. symmetry. apply Int_part_spec. lra. Qed.

(** [pow] with an integral exponent. *)
Lemma pow_IZR (x : R) (n : Z) : pow x (IZR n) = powerRZ x n.
Proof.
  unfold pow. rewrite Int_part_IZR.
  destruct (Req_dec_T (IZR n) (IZR n)) as [_|H]; [reflexivity|].
  now contradiction H.
Qed.

Lemma pow_zero_base (n : Z) : (1 <= n)%Z -> pow 0 (IZR n) = 0.
Proof.
  intros Hn. rewrite pow_IZR. destruct n as [|n|n]; try lia.
  simpl. apply pow_i. lia.
Qed.

(** [pow] with an exponent strictly between two consecutive integers, and a
    positive base. *)
Lemma pow_fractional (x y : R) (z : Z) :
  IZR z < y < IZR z + 1 -> 0 < x -> pow x y = Rpower x y.
Proof.
  intros Hy Hx. unfold pow.
  assert (Hz : Int_part y = z) by (symmetry; apply Int_part_spec; lra).
  rewrite Hz.
  destruct (Req_dec_T y (IZR z)) as [E|_]; [lra|].
  replace (0 <? x) with true by (symmetry; Rcmp; lra).
  reflexivity.
Qed.

Lemma Rpower_pos (x y : R) : 0 < Rpower x y.
Proof. unfold Rpower. apply exp_pos. Qed.

(** A base in (0, 1) with a positive exponent. *)
Lemma Rpower_lt_1 (x y : R) : 0 < x < 1 -> 0 < y -> Rpower x y < 1.
Proof.
  intros Hx Hy. unfold Rpower. rewrite <- exp_0. apply exp_increasing.
  assert (ln x < 0) by (rewrite <- ln_1; apply ln_increasing; lra).
  nra.
Qed.

Lemma exp_1_gt_2 : 2 < exp 1.
Proof. pose proof (exp_ineq1 1). lra. Qed.

Lemma exp_2_le_9 : exp 2 <= 9.
Proof.
  replace 2 with (1 + 1) by lra. rewrite exp_plus.
  pose proof exp_le_3. pose proof (exp_pos 1). nra.
Qed.

Lemma log_pos (x : R) : 1 < x -> 0 < log x.
Proof. intros Hx. unfold log. rewrite <- ln_1. apply ln_increasing; lra. Qed.

Lemma log_lt_1 (x : R) : 0 < x < 2 -> log x < 1.
Proof.
  intros Hx. unfold log. rewrite <- (ln_exp 1).
  apply ln_increasing; [lra|]. pose proof exp_1_gt_2. lra.
Qed.

(** ** rng_lp *)

Section rng_lp_facts.

Import rng_lp_c.

Variable nrml_p : R -> Z -> R.

#[local] Abbreviation nrml_ip := (rng_lp_c.nrml_ip nrml_p).
#[local] Abbreviation f := (rng_lp_c.f nrml_p).
#[local] Abbreviation quad_step := (rng_lp_c.quad_step nrml_p).
#[local] Abbreviation rng_lp := (rng_lp_c.rng_lp nrml_p).

Lemma rng_lp_nonpositive r k : r <= 0 -> rng_lp r k = 0.
Proof.
  intros Hr. unfold rng_lp_c.rng_lp. cbv zeta.
  replace (r <=? 0.0) with true by (symmetry; Rcmp; lra). lra.
Qed.

Lemma rng_lp_two r : 0 < r -> rng_lp r 2 = 2 * nrml_p (r / sqrt 2) 2.
Proof.
  intros Hr. unfold rng_lp_c.rng_lp. cbv zeta.
  replace (r <=? 0.0) with false by (symmetry; Rcmp; lra).
  change (2 =? 2)%Z with true. cbv iota.
  replace 2.0 with 2 by lra. reflexivity.
Qed.

(** The two terms of the general case. *)
Lemma rng_lp_general r k :
  0 < r -> k <> 2%Z ->
  rng_lp r k =
  (if ulim r k >? 0.5 * r then
     fold_left (quad_step (0.5 * (ulim r k + 0.5 * r))
                  (0.5 * (ulim r k - 0.5 * r)) r k) (seq 0 10) 0.0
     * (2.0 * IZR k * (0.5 * (ulim r k - 0.5 * r)) * CNST0)
   else 0.0)
  + pow (2.0 * nrml_p (0.5 * r) 2) (IZR k).
Proof.
  intros Hr Hk. unfold rng_lp_c.rng_lp. cbv zeta.
  replace (r <=? 0.0) with false by (symmetry; Rcmp; lra).
  replace (k =? 2)%Z with false by (symmetry; now apply Z.eqb_neq).
  reflexivity.
Qed.

(** A sum accumulated by [fold_left] and scaled afterwards. *)
Lemma fold_left_sum_scaled (a : nat -> R) (c : R) (l : list nat) :
  forall p0,
  fold_left (fun p i => p + a i) l p0 * c
  = p0 * c + c * fold_right Rplus 0 (map a l).
Proof.
  induction l as [|i l IH]; intros p0; simpl.
  - lra.
  - rewrite IH. lra.
Qed.

Lemma fold_right_sum_scaled (a : nat -> R) (c : R) (l : list nat) :
  c * fold_right Rplus 0 (map a l)
  = fold_right Rplus 0 (map (fun i => c * a i) l).
Proof.
  induction l as [|i l IH]; simpl.
  - lra.
  - rewrite <- IH. lra.
Qed.

(** C3 (amended).  For [r > 0], [rng_lp(r, 2)] is twice the value of
    mode 2 (CENTRAL) of [nrml_p] at [r / sqrt 2], that one call.  When mode 2
    returns the lower probability [Phi(u)], as section 6 has it, this is
    [2 Phi(r / sqrt 2)], which exceeds [2 Phi(r / sqrt 2) - 1] by exactly 1;
    it is [2 Phi(r / sqrt 2) - 1] when mode 2 returns the central probability
    [Phi(u) - 1/2]. *)
Theorem rng_lp_two_groups (Phi : R -> R) (r : R) :
  0 < r ->
  rng_lp r 2 = 2 * nrml_p (r / sqrt 2) 2 /\
  ((forall u, nrml_p u 2 = Phi u) ->
     rng_lp r 2 = 2 * Phi (r / sqrt 2) /\
     rng_lp r 2 - (2 * Phi (r / sqrt 2) - 1) = 1) /\
  ((forall u, nrml_p u 2 = Phi u - 1 / 2) ->
     rng_lp r 2 = 2 * Phi (r / sqrt 2) - 1).
Proof.
  intros Hr. rewrite (rng_lp_two r Hr). split; [reflexivity|].
  split; intros H; rewrite H; lra.
Qed.

(** *** Under a contract for [nrml_p] *)

Section with_contract.

(** [Phi] is the lower probability of the standard normal distribution.
    Modes 0 and 1 of [nrml_p] return the lower and the upper probability, and
    differences of mode 2 are interval probabilities; mode 2 itself is not
    constrained here. *)
Variable Phi : R -> R.
Hypothesis lower : forall u, nrml_p u 0 = Phi u.
Hypothesis upper : forall u, nrml_p u 1 = 1 - Phi u.
Hypothesis central : forall a b, nrml_p b 2 - nrml_p a 2 = Phi b - Phi a.

Lemma nrml_ip_interval a b : a < b -> nrml_ip a b = Phi b - Phi a.
Proof.
  intros Hab. unfold rng_lp_c.nrml_ip. cbv zeta.
  replace (a >=? b) with false by (symmetry; Rcmp; lra).
  destruct (a >? BORDER); [rewrite !upper; lra|].
  destruct (b <? - BORDER); [rewrite !lower; lra|].
  apply central.
Qed.

Lemma f_integrand x r k :
  0 < r -> CNST0 * f x r k = hartley.integrand Phi r k x.
Proof.
  intros Hr. unfold rng_lp_c.f, hartley.integrand, hartley.phi.
  rewrite nrml_ip_interval by lra. rewrite pow_IZR.
  rewrite <- Rmult_assoc. do 3 f_equal. lra.
Qed.

(** The accumulated and scaled sum of lines 483 to 487 is [2 k] times the
    quadrature of the integrand. *)
Lemma correction_term r k xu :
  0 < r ->
  fold_left (quad_step (0.5 * (xu + 0.5 * r)) (0.5 * (xu - 0.5 * r)) r k)
    (seq 0 10) 0.0
  * (2.0 * IZR k * (0.5 * (xu - 0.5 * r)) * CNST0)
  = 2 * IZR k
    * hartley.gauss_legendre_20 (hartley.integrand Phi r k) (r / 2) xu.
Proof.
  intros Hr. unfold hartley.gauss_legendre_20. cbv zeta.
  replace ((r / 2 + xu) / 2) with (0.5 * (xu + 0.5 * r)) by lra.
  replace ((xu - r / 2) / 2) with (0.5 * (xu - 0.5 * r)) by lra.
  set (cntr := 0.5 * (xu + 0.5 * r)). set (wdth := 0.5 * (xu - 0.5 * r)).
  change (quad_step cntr wdth r k)
    with (fun p i => p + (fun i => nth i wt 0
                            * (f (cntr - wdth * nth i nd 0) r k
                               + f (cntr + wdth * nth i nd 0) r k)) i).
  rewrite fold_left_sum_scaled.
  set (a := fun i => nth i wt 0 * (f (cntr - wdth * nth i nd 0) r k
                                   + f (cntr + wdth * nth i nd 0) r k)).
  set (g := fun i => nth i wt 0
                     * (hartley.integrand Phi r k (cntr - wdth * nth i nd 0)
                        + hartley.integrand Phi r k
                            (cntr + wdth * nth i nd 0))).
  rewrite (map_ext g (fun i => CNST0 * a i)).
  - rewrite <- fold_right_sum_scaled. lra.
  - intros i. unfold g, a. rewrite <- !f_integrand by exact Hr. lra.
Qed.

(** C2 (amended).  For [r > 0] and [k >= 3] the value is the sum of a first
    term and, only when the upper limit [u(r, k)] exceeds [r/2], the
    correction term [2k] times the midpoint-centred 20-node Gauss-Legendre
    quadrature of [phi(x) (Phi(x) - Phi(x - r))^(k-1)] over [[r/2, u(r, k)]].
    The first term is the [k]-th power of twice the value of mode 2 (CENTRAL)
    of [nrml_p] at [r/2]: the factor 2 is inside the power. *)
Theorem rng_lp_hartley r k :
  0 < r -> (3 <= k)%Z ->
  rng_lp r k =
  powerRZ (2 * nrml_p (r / 2) 2) k
  + (if ulim r k >? r / 2
     then 2 * IZR k
          * hartley.gauss_legendre_20 (hartley.integrand Phi r k)
              (r / 2) (ulim r k)
     else 0).
Proof.
  intros Hr Hk. rewrite rng_lp_general by (auto; lia).
  rewrite pow_IZR. rewrite Rplus_comm. f_equal.
  - f_equal. replace (0.5 * r) with (r / 2) by lra. lra.
  - replace (ulim r k >? r / 2) with (ulim r k >? 0.5 * r)
      by (f_equal; lra).
    destruct (ulim r k >? 0.5 * r); [now apply correction_term|lra].
Qed.

End with_contract.

End rng_lp_facts.

(** *** [nrml_p] as section 6 specifies it *)

Lemma NormalCDF_contract (Phi : R -> R) :
  (forall u, nrml_p_c.nrml_p Phi u 0 = Phi u) /\
  (forall u, nrml_p_c.nrml_p Phi u 1 = 1 - Phi u) /\
  (forall a b, nrml_p_c.nrml_p Phi b 2 - nrml_p_c.nrml_p Phi a 2
               = Phi b - Phi a) /\
  (forall u, nrml_p_c.nrml_p Phi u 2 = Phi u).
Proof. repeat split. Qed.

Lemma sample_Phi_nonneg (u : R) :
  0 <= u -> sample.Phi u = 1 / 2 + u / (2 * (1 + u)).
Proof. intros Hu. unfold sample.Phi. now rewrite Rabs_pos_eq. Qed.

(** [u(20, 3)] does not exceed 10: it is 0, or [ulim13], at most
    [1.403 sqrt(49)], times a factor that [MIN] keeps at most 1. *)
Lemma ulim_20_3 : rng_lp_c.ulim 20 3 <= 10.
Proof.
  unfold rng_lp_c.ulim. cbv zeta. change (3 >? 1000)%Z with false.
  cbv iota. change (3 <=? 10)%Z with true. cbv iota.
  destruct (20 <=? _); [lra|].
  set (z := rng_lp_c.MIN 1.0 _).
  assert (Hz : z <= 1).
  { unfold z, rng_lp_c.MIN. destruct (1.0 <? _) eqn:E; Rcmp; lra. }
  assert (Hl : log (IZR 3) <= 2).
  { unfold log. rewrite <- (ln_exp 2). left. apply ln_increasing; [lra|].
    replace 2 with (1 + 1) by lra. rewrite exp_plus.
    pose proof exp_1_gt_2. nra. }
  assert (Hs : 0 <= sqrt (log (IZR 3) + 28.127) <= 7).
  { split; [apply sqrt_pos|]. rewrite <- (sqrt_square 7) by lra.
    apply sqrt_le_1_alt. lra. }
  set (s := sqrt (log (IZR 3) + 28.127)) in *.
  assert (s * z <= s * 1) by (apply Rmult_le_compat_l; lra).
  rewrite Rmult_assoc. lra.
Qed.

(** At [r = 20], [k = 3] the correction term is absent, and under the
    contract of section 6 with [sample.Phi] (whose value at 10 is 21/22) the
    code returns [(2 * 21/22)^3], not [2 * (21/22)^3].  The same holds when
    mode 2 returns the central probability [Phi(u) - 1/2]: the code then
    returns [(2 * 10/22)^3]. *)
Lemma rng_lp_first_term_counterexample :
  let nrml_p := nrml_p_c.nrml_p sample.Phi in
  let nrml_p' := fun u m => if (m =? 2)%Z then sample.Phi u - 1 / 2
                            else nrml_p u m in
  rng_lp_c.ulim 20 3 <= 20 / 2 /\
  hartley.first_term_as_written sample.Phi 20 3 = 2 * (21 / 22) ^ 3 /\
  rng_lp_c.rng_lp nrml_p 20 3 = (21 / 11) ^ 3 /\
  rng_lp_c.rng_lp nrml_p 20 3
    <> hartley.first_term_as_written sample.Phi 20 3 + 0 /\
  rng_lp_c.rng_lp nrml_p' 20 3 = (10 / 11) ^ 3 /\
  rng_lp_c.rng_lp nrml_p' 20 3
    <> hartley.first_term_as_written sample.Phi 20 3 + 0.
Proof.
  intros nrml_p nrml_p'. pose proof ulim_20_3 as Hu.
  assert (HPhi : sample.Phi (0.5 * 20) = 21 / 22).
  { rewrite sample_Phi_nonneg by lra. lra. }
  assert (Hw : hartley.first_term_as_written sample.Phi 20 3
               = 2 * (21 / 22) ^ 3).
  { unfold hartley.first_term_as_written.
    replace (20 / 2) with (0.5 * 20) by lra. rewrite HPhi. reflexivity. }
  assert (Hc : rng_lp_c.rng_lp nrml_p 20 3 = (21 / 11) ^ 3).
  { rewrite rng_lp_general by (lra || lia).
    replace (rng_lp_c.ulim 20 3 >? 0.5 * 20) with false
      by (symmetry; Rcmp; lra).
    rewrite pow_IZR.
    change (nrml_p (0.5 * 20) 2%Z) with (sample.Phi (0.5 * 20)).
    rewrite HPhi. simpl. lra. }
  assert (Hc' : rng_lp_c.rng_lp nrml_p' 20 3 = (10 / 11) ^ 3).
  { rewrite rng_lp_general by (lra || lia).
    replace (rng_lp_c.ulim 20 3 >? 0.5 * 20) with false
      by (symmetry; Rcmp; lra).
    rewrite pow_IZR.
    change (nrml_p' (0.5 * 20) 2%Z) with (sample.Phi (0.5 * 20) - 1 / 2).
    rewrite HPhi. simpl. lra. }
  repeat split; auto; try lra; rewrite ?Hc, ?Hc', Hw; simpl; lra.
Qed.

Lemma rng_lp_hartley_witness :
  let nrml_p := nrml_p_c.nrml_p sample.Phi in
  (0 < 20 /\ (3 <= 3)%Z) /\
  rng_lp_c.rng_lp nrml_p 20 3 =
  powerRZ (2 * nrml_p (20 / 2) 2%Z) 3
  + (if rng_lp_c.ulim 20 3 >? 20 / 2
     then 2 * IZR 3
          * hartley.gauss_legendre_20 (hartley.integrand sample.Phi 20 3)
              (20 / 2) (rng_lp_c.ulim 20 3)
     else 0).
Proof.
  intros nrml_p. split; [split; [lra|lia]|].
  destruct (NormalCDF_contract sample.Phi) as (Hl & Hu & Hc & _).
  apply (rng_lp_hartley nrml_p sample.Phi Hl Hu Hc 20 3); [lra|lia].
Defined.

(** At [r = 1], inside [0.1, 10], under the contract of section 6: the code
    returns [2 Phi(1 / sqrt 2)], at distance 1 from
    [2 Phi(1 / sqrt 2) - 1]. *)
Lemma rng_lp_two_groups_counterexample :
  let nrml_p := nrml_p_c.nrml_p sample.Phi in
  0.1 <= 1 <= 10 /\
  rng_lp_c.rng_lp nrml_p 1 2 = 2 * sample.Phi (1 / sqrt 2) /\
  Rabs (rng_lp_c.rng_lp nrml_p 1 2 - (2 * sample.Phi (1 / sqrt 2) - 1))
    > 1.0e-12.
Proof.
  intros nrml_p. rewrite rng_lp_two by lra.
  change (nrml_p (1 / sqrt 2) 2%Z) with (sample.Phi (1 / sqrt 2)).
  split; [lra|]. split; [reflexivity|].
  replace (2 * sample.Phi (1 / sqrt 2) - (2 * sample.Phi (1 / sqrt 2) - 1))
    with 1 by lra.
  rewrite Rabs_R1. lra.
Qed.

Lemma rng_lp_two_groups_witness :
  let nrml_p := nrml_p_c.nrml_p sample.Phi in
  0 < 1 /\
  rng_lp_c.rng_lp nrml_p 1 2 = 2 * nrml_p (1 / sqrt 2) 2%Z /\
  ((forall u, nrml_p u 2%Z = sample.Phi u) ->
     rng_lp_c.rng_lp nrml_p 1 2 = 2 * sample.Phi (1 / sqrt 2) /\
     rng_lp_c.rng_lp nrml_p 1 2 - (2 * sample.Phi (1 / sqrt 2) - 1) = 1) /\
  ((forall u, nrml_p u 2%Z = sample.Phi u - 1 / 2) ->
     rng_lp_c.rng_lp nrml_p 1 2 = 2 * sample.Phi (1 / sqrt 2) - 1).
Proof.
  intros nrml_p. split; [lra|].
  apply (rng_lp_two_groups nrml_p sample.Phi 1). lra.
Defined.

(** *** More on [nrml_ip], [ulim] and large ranges *)



Section rng_lp_more.

Import rng_lp_c.

Variable nrml_p : R -> Z -> R.

#[local] Abbreviation nrml_ip := (rng_lp_c.nrml_ip nrml_p).
#[local] Abbreviation rng_lp := (rng_lp_c.rng_lp nrml_p).


End rng_lp_more.


(** *** The upper limit of integration *)

Lemma exp_10_gt_1024 : 1024 < exp 10.
Proof.
  pose proof exp_1_gt_2 as H1.
  assert (H2 : 4 < exp 2).
  { replace 2 with (1 + 1) by lra. rewrite exp_plus. nra. }
  assert (H5 : 32 < exp 5).
  { replace 5 with (2 + 2 + 1) by lra. rewrite !exp_plus. nra. }
  replace 10 with (5 + 5) by lra. rewrite exp_plus. nra.
Qed.

Lemma log_le_10 (k : Z) : (1 <= k <= 1000)%Z -> 0 <= log (IZR k) <= 10.
Proof.
  intros [Hlo Hhi]. apply IZR_le in Hlo, Hhi. unfold log. split.
  - rewrite <- ln_1. destruct Hlo as [Hlo|<-]; [|lra].
    left. apply ln_increasing; lra.
  - rewrite <- (ln_exp 10). left. apply ln_increasing; [lra|].
    pose proof exp_10_gt_1024. lra.
Qed.

(** The scaling factor of lines 415 and 425 does not exceed 1:
    [MIN] keeps it there for [k <= 10], and for [k > 10] the polynomial is
    [1 - 0.005 (9 - w)(17.8 - w)] on [w <= 9]. *)
Lemma ulim_polynomial_le_1 (w : R) :
  w <= 9 -> 0.199 + 0.134 * w - 0.00500 * w * w <= 1.
Proof. intros Hw. assert (0 <= (9 - w) * (17.8 - w)) by nra. lra. Qed.

Lemma ulim_le (r : R) (k : Z) : (1 <= k)%Z -> rng_lp_c.ulim r k <= 8.7.
Proof.
  intros Hk. unfold rng_lp_c.ulim. cbv zeta.
  set (k' := if (k >? 1000)%Z then 1000%Z else k).
  assert (Hk' : (1 <= k' <= 1000)%Z).
  { unfold k'. destruct (k >? 1000)%Z eqn:E; [lia|].
    rewrite Z.gtb_ltb in E. apply Z.ltb_ge in E. lia. }
  destruct (r <=? _); [lra|].
  pose proof (log_le_10 k' Hk') as Hl.
  assert (Hs : 0 <= sqrt (log (IZR k') + 28.127) <= 6.2).
  { split; [apply sqrt_pos|]. rewrite <- (sqrt_square 6.2) by lra.
    apply sqrt_le_1_alt. lra. }
  set (s := sqrt (log (IZR k') + 28.127)) in *.
  match goal with |- 1.403 * s * ?z <= _ => set (zz := z) end.
  assert (Hz : zz <= 1).
  { unfold zz. destruct (k' <=? 10)%Z.
    - unfold rng_lp_c.MIN. destruct (1.0 <? _) eqn:E; Rcmp; lra.
    - cbv zeta. destruct (_ >? 9.0) eqn:E; Rcmp; [lra|].
      apply ulim_polynomial_le_1. lra. }
  assert (s * zz <= s * 1) by (apply Rmult_le_compat_l; lra).
  rewrite Rmult_assoc. lra.
Qed.

(** X2.  [ulim] uses [k = 1000] for every [k > 1000], and for every [r] and
    [k >= 1] its value is at most 8.7: the base limit
    [1.403 sqrt(log k + 28.127)] is at most [1.403 * 6.2] for [k <= 1000] and
    the scaling factor is at most 1. *)
Theorem ulim_capped_and_bounded (r : R) (k : Z) :
  ((1000 < k)%Z -> rng_lp_c.ulim r k = rng_lp_c.ulim r 1000) /\
  ((1 <= k)%Z -> rng_lp_c.ulim r k <= 8.7).
Proof.
  split; [|apply ulim_le].
  intros Hk. unfold rng_lp_c.ulim.
  replace (k >? 1000)%Z with true
    by (symmetry; rewrite Z.gtb_ltb; apply Z.ltb_lt; lia).
  reflexivity.
Qed.

Lemma ulim_capped_and_bounded_witness :
  rng_lp_c.ulim 5 2000 = rng_lp_c.ulim 5 1000 /\
  rng_lp_c.ulim 5 2000 <= 8.7.
Proof.
  destruct (ulim_capped_and_bounded 5 2000) as [Hcap Hle].
  split; [apply Hcap; lia|apply Hle; lia].
Defined.

(** X3.  For [r >= 17.4] and [k >= 3] the upper limit is not above [r/2],
    so [rng_lp] evaluates no quadrature and returns the first term of
    Hartley's formula alone, whatever [nrml_p] is. *)
Theorem rng_lp_large_range (nrml_p : R -> Z -> R) (r : R) (k : Z) :
  17.4 <= r -> (3 <= k)%Z ->
  rng_lp_c.ulim r k <= r / 2 /\
  rng_lp_c.rng_lp nrml_p r k = powerRZ (2 * nrml_p (r / 2) 2%Z) k.
Proof.
  intros Hr Hk. pose proof (ulim_le r k ltac:(lia)) as Hu.
  split; [lra|].
  rewrite rng_lp_general by (lra || lia).
  replace (rng_lp_c.ulim r k >? 0.5 * r) with false
    by (symmetry; Rcmp; lra).
  rewrite pow_IZR. replace (0.5 * r) with (r / 2) by lra.
  replace (2.0 * nrml_p (r / 2) 2%Z) with (2 * nrml_p (r / 2) 2%Z) by lra.
  lra.
Qed.

Lemma rng_lp_large_range_witness :
  let nrml_p := nrml_p_c.nrml_p sample.Phi in
  (17.4 <= 20 /\ (3 <= 5)%Z) /\
  rng_lp_c.ulim 20 5 <= 20 / 2 /\
  rng_lp_c.rng_lp nrml_p 20 5 = powerRZ (2 * nrml_p (20 / 2) 2%Z) 5.
Proof.
  intros nrml_p. split; [split; [lra|lia]|].
  apply (rng_lp_large_range nrml_p 20 5); [lra|lia].
Defined.

(** ** smrng_lp *)

Section smrng_lp_facts.

Import smrng_lp_c.

Variable rng_lp : R -> Z -> R.

#[local] Abbreviation f := (smrng_lp_c.f rng_lp).
#[local] Abbreviation loop_body := (smrng_lp_c.loop_body rng_lp).
#[local] Abbreviation loop := (smrng_lp_c.loop rng_lp).
#[local] Abbreviation segment := (smrng_lp_c.segment rng_lp).
#[local] Abbreviation smrng_lp_run := (smrng_lp_c.smrng_lp_run rng_lp).
#[local] Abbreviation smrng_lp := (smrng_lp_c.smrng_lp rng_lp).
#[local] Abbreviation smrng_lp_passes := (smrng_lp_c.smrng_lp_passes rng_lp).

(** *** The tables of [chi2l] and [chi2u] *)

Lemma array_get_in_bounds (a : list R) (i : Z) :
  (0 <= i < Z.of_nat (length a))%Z -> exists y, array_get a i = Some y.
Proof.
  intros Hi. unfold array_get.
  replace (i <? 0)%Z with false by (symmetry; apply Z.ltb_ge; lia).
  destruct (nth_error a (Z.to_nat i)) as [y|] eqn:E; [now exists y|].
  apply nth_error_None in E. lia.
Qed.

Lemma array_get_negative (a : list R) (i : Z) :
  (i < 0)%Z -> array_get a i = None.
Proof.
  intros Hi. unfold array_get.
  now replace (i <? 0)%Z with true by (symmetry; apply Z.ltb_lt; lia).
Qed.

Lemma chi2u_defined df : (1 <= df)%Z -> exists u, chi2u df = Some u.
Proof.
  intros Hdf. unfold chi2u. cbv zeta.
  destruct (df <=? 5)%Z eqn:H5.
  - apply array_get_in_bounds. apply Z.leb_le in H5. simpl. lia.
  - eexists. reflexivity.
Qed.

Lemma chi2l_defined df : (1 <= df)%Z -> exists l, chi2l df = Some l.
Proof.
  intros Hdf. unfold chi2l. cbv zeta.
  destruct (df <=? 5)%Z eqn:H5.
  - apply array_get_in_bounds. apply Z.leb_le in H5. simpl. lia.
  - destruct (df <=? 20)%Z; eexists; reflexivity.
Qed.

Lemma chi2_undefined df :
  (df <= 0)%Z -> chi2l df = None /\ chi2u df = None.
Proof.
  intros Hdf. unfold chi2l, chi2u. cbv zeta.
  replace (df <=? 5)%Z with true by (symmetry; apply Z.leb_le; lia).
  split; apply array_get_negative; lia.
Qed.

Lemma smrng_lp_run_defined q k df nrng :
  exists r, smrng_lp_run q k df nrng = Some r.
Proof.
  unfold smrng_lp_c.smrng_lp_run. cbv zeta.
  destruct (q <=? 0.0); [eexists; reflexivity|].
  destruct (df <=? 0)%Z eqn:Hdf; [eexists; reflexivity|].
  apply Z.leb_gt in Hdf.
  destruct (chi2l_defined df) as [l ->]; [lia|].
  destruct (chi2u_defined df) as [u ->]; [lia|].
  destruct (_ >=? _); [eexists; reflexivity|].
  destruct (_ <=? _); eexists; reflexivity.
Qed.

(** C10.  [chi2l] and [chi2u] read their table [first] at [df - 1] only when
    [df <= 5]; for [df >= 1] that index is within the five entries (and both
    functions return a value), while for [df <= 0] it is below them.
    [smrng_lp] returns before calling them when [df <= 0], so no call of
    [smrng_lp] reads outside a table. *)
Theorem chi2_table_reads_in_bounds :
  (forall df, (1 <= df <= 5)%Z ->
     (0 <= df - 1 <= 4)%Z /\
     chi2l df = nth_error [3.926e-27; 1.0e-13; 3.281e-09; 6.324e-07; 1.546e-05]
                  (Z.to_nat (df - 1)) /\
     chi2u df = nth_error [56.73; 61.26; 65.01; 68.38; 71.50]
                  (Z.to_nat (df - 1))) /\
  (forall df, (1 <= df)%Z ->
     exists l u, chi2l df = Some l /\ chi2u df = Some u) /\
  (forall df, (df <= 0)%Z -> chi2l df = None /\ chi2u df = None) /\
  (forall q k df nrng, exists y, smrng_lp q k df nrng = Some y).
Proof.
  split; [|split; [|split]].
  - intros df Hdf. split; [lia|]. unfold chi2l, chi2u, array_get. cbv zeta.
    replace (df <=? 5)%Z with true by (symmetry; apply Z.leb_le; lia).
    replace (df - 1 <? 0)%Z with false by (symmetry; apply Z.ltb_ge; lia).
    split; reflexivity.
  - intros df Hdf.
    destruct (chi2l_defined df Hdf) as [l Hl].
    destruct (chi2u_defined df Hdf) as [u Hu]. now exists l, u.
  - apply chi2_undefined.
  - intros q k df nrng. unfold smrng_lp_c.smrng_lp.
    destruct (smrng_lp_run_defined q k df nrng) as [[y|cnst v] ->];
      eexists; reflexivity.
Qed.

(** *** The loop of [coef] *)

(** The loop of [coef] ends within the iterations [coef] allows it: more
    would not change the coefficient. *)
Lemma coef_loop_fuel fuel : forall n g fuel',
  (n <= Z.of_nat fuel)%Z -> (n <= Z.of_nat fuel')%Z ->
  coef_loop fuel n g = coef_loop fuel' n g.
Proof.
  induction fuel as [|fuel IH]; intros n g fuel' Hn Hn'.
  - destruct fuel' as [|fuel']; [reflexivity|]. simpl.
    now replace (n >? 0)%Z with false
      by (symmetry; rewrite Z.gtb_ltb; apply Z.ltb_ge; lia).
  - destruct fuel' as [|fuel']; simpl.
    + now replace (n >? 0)%Z with false
        by (symmetry; rewrite Z.gtb_ltb; apply Z.ltb_ge; lia).
    + destruct (n >? 0)%Z; [|reflexivity]. apply IH; lia.
Qed.

Lemma coef_fuel df fuel :
  (df <= Z.of_nat fuel)%Z ->
  coef df =
  2.0 * exp (0.5 * IZR df * (log (0.5 * IZR df) - 1.0)
             - coef_loop fuel (df - 2)
                 (if (Z.rem df 2 =? 1)%Z then LOGSQRTPI else 0.0)).
Proof.
  intros Hf. unfold coef. cbv zeta.
  rewrite (coef_loop_fuel (Z.to_nat df) _ _ fuel) by lia. reflexivity.
Qed.

(** *** The integration loop *)

Lemma loop_body_fields k df nrng q sll ruq v :
  loop_body k df nrng q sll ruq v =
  let p := v_p v + segment k df nrng q (v_isw v) (v_sl v) (v_su v) in
  let passes := v_passes v ++ [mkpass (v_isw v) (v_sl v) (v_su v)] in
  if (v_isw v =? 0)%Z then mkvars (v_isw v + 1) sll ruq p passes
  else mkvars (v_isw v + 1) (v_sl v) (v_su v) p passes.
Proof. reflexivity. Qed.

(** Entered with [isw = 0], the loop makes two passes: the first between the
    limits it was entered with, the second between [sll] and [ruq]. *)
Lemma loop_from_0 k df nrng q sll ruq sl su p :
  loop 2 k df nrng q sll ruq (mkvars 0 sl su p []) =
  mkvars 2 sll ruq
    (p + segment k df nrng q 0 sl su + segment k df nrng q 1 sll ruq)
    [mkpass 0 sl su; mkpass 1 sll ruq].
Proof.
  cbn [smrng_lp_c.loop v_isw Z.ltb Z.compare].
  rewrite !loop_body_fields. reflexivity.
Qed.

(** Entered with [isw = 1], the loop makes the one pass with the full
    integrand. *)
Lemma loop_from_1 k df nrng q sll ruq sl su p :
  loop 1 k df nrng q sll ruq (mkvars 1 sl su p []) =
  mkvars 2 sl su (p + segment k df nrng q 1 sl su) [mkpass 1 sl su].
Proof.
  cbn [smrng_lp_c.loop v_isw Z.ltb Z.compare Pos.compare Pos.compare_cont].
  rewrite !loop_body_fields. reflexivity.
Qed.



Lemma lower_limit_max rlq sl : (if rlq >? sl then rlq else sl) = Rmax sl rlq.
Proof.
  unfold Rmax. destruct (rlq >? sl) eqn:H; Rcmp;
    destruct (Rle_dec sl rlq); lra.
Qed.



(** The early returns once the limits are computed: 0 when the scaled
    lower limit of the range reaches [su], 1 when the scaled upper limit does
    not exceed the lower limit of integration. *)
Lemma smrng_lp_run_short_circuit q k df nrng c2l c2u :
  0 < q -> (1 <= df)%Z ->
  chi2l df = Some c2l -> chi2u df = Some c2u ->
  let sl := sqrt (c2l / IZR df) in
  let su := sqrt (c2u / IZR df) in
  let rlq := rlower k nrng / q in
  let ruq := rupper k nrng / q in
  (su <= rlq -> smrng_lp_run q k df nrng = Some (Done 0.0)) /\
  (rlq < su -> ruq <= Rmax sl rlq ->
     smrng_lp_run q k df nrng = Some (Done 1.0)).
Proof.
  intros Hq Hdf Hl Hu sl su rlq ruq.
  unfold smrng_lp_c.smrng_lp_run. cbv zeta.
  replace (q <=? 0.0) with false by (symmetry; Rcmp; lra).
  replace (df <=? 0)%Z with false by (symmetry; apply Z.leb_gt; lia).
  rewrite Hl, Hu. fold sl su rlq ruq. split.
  - intros H. now replace (rlq >=? su) with true by (symmetry; Rcmp; lra).
  - intros H1 H2.
    replace (rlq >=? su) with false by (symmetry; Rcmp; lra).
    rewrite lower_limit_max.
    now replace (ruq <=? Rmax sl rlq) with true by (symmetry; Rcmp; lra).
Qed.




(** *** A call with two segments *)

(** [q = 2], [k = 2], [df = 1], [nrng = 1]: the limits are
    [sl = sqrt(3.926e-27)], [su = sqrt(56.73)], and, with [rlower < 9] and
    [10.465 < rupper < 10.885], [rlq < 4.5] and [5.2 < ruq < 5.5]. *)
Lemma sample_rupper : 10.465 < rupper 2 1 < 10.885.
Proof.
  unfold rupper. cbv zeta. change (1 <=? 1)%Z with true. cbv iota.
  assert (Hl : 0 < log (IZR 2 - 0.5) < 1).
  { split; [apply log_pos|apply log_lt_1]; lra. }
  rewrite (pow_fractional _ 0.9 0) by lra.
  pose proof (Rpower_pos (log (IZR 2 - 0.5)) 0.9).
  pose proof (Rpower_lt_1 (log (IZR 2 - 0.5)) 0.9 Hl ltac:(lra)).
  lra.
Qed.

Lemma sample_rlower : 0 < rlower 2 1 < 9.
Proof.
  unfold rlower. cbv zeta. change (2 <=? 40)%Z with true.
  change (1 <=? 1)%Z with true. cbv iota.
  assert (Hl : 0 < log (IZR 2 + 0.5)) by (apply log_pos; lra).
  rewrite (pow_fractional _ 2.1 2) by lra.
  pose proof (Rpower_pos (log (IZR 2 + 0.5)) 2.1) as Hp.
  split; [apply exp_pos|].
  apply Rlt_le_trans with (exp 2); [|apply exp_2_le_9].
  apply exp_increasing.
  assert (0 < 27.12 / Rpower (log (IZR 2 + 0.5)) 2.1)
    by (apply Rdiv_lt_0_compat; lra).
  lra.
Qed.


End smrng_lp_facts.

Lemma sample_chi2 :
  smrng_lp_c.chi2l 1 = Some 3.926e-27 /\ smrng_lp_c.chi2u 1 = Some 56.73.
Proof. split; reflexivity. Qed.



(** *** The other paths of [smrng_lp] *)

Section smrng_lp_more.

Import smrng_lp_c.

Variable rng_lp : R -> Z -> R.

#[local] Abbreviation segment := (smrng_lp_c.segment rng_lp).
#[local] Abbreviation smrng_lp_run := (smrng_lp_c.smrng_lp_run rng_lp).
#[local] Abbreviation smrng_lp := (smrng_lp_c.smrng_lp rng_lp).
#[local] Abbreviation smrng_lp_passes := (smrng_lp_c.smrng_lp_passes rng_lp).

(** X4.  The early returns of [smrng_lp]: 0 for [q <= 0], whatever the other
    arguments; and for [q > 0], [df >= 1], 0 when the scaled lower limit
    [rlq] of the range reaches the upper limit [su], and 1 when [rlq < su]
    and the scaled upper limit [ruq] does not exceed [max(sl, rlq)].  No
    pass of the integration loop runs on these paths. *)
Theorem smrng_lp_early_returns (q : R) (k df nrng : Z) (c2l c2u : R) :
  (q <= 0 ->
     smrng_lp q k df nrng = Some 0 /\ smrng_lp_passes q k df nrng = []) /\
  (0 < q -> (1 <= df)%Z ->
   chi2l df = Some c2l -> chi2u df = Some c2u ->
   let sl := sqrt (c2l / IZR df) in
   let su := sqrt (c2u / IZR df) in
   let rlq := rlower k nrng / q in
   let ruq := rupper k nrng / q in
   (su <= rlq ->
      smrng_lp q k df nrng = Some 0 /\ smrng_lp_passes q k df nrng = []) /\
   (rlq < su -> ruq <= Rmax sl rlq ->
      smrng_lp q k df nrng = Some 1 /\ smrng_lp_passes q k df nrng = [])).
Proof.
  split.
  - intros Hq. unfold smrng_lp_c.smrng_lp, smrng_lp_c.smrng_lp_passes,
      smrng_lp_c.smrng_lp_run. cbv zeta.
    replace (q <=? 0.0) with true by (symmetry; Rcmp; lra).
    split; [f_equal; lra|reflexivity].
  - intros Hq Hdf Hl Hu sl su rlq ruq.
    destruct (smrng_lp_run_short_circuit rng_lp q k df nrng c2l c2u
                Hq Hdf Hl Hu) as [H0 H1].
    fold sl su rlq ruq in H0, H1.
    unfold smrng_lp_c.smrng_lp, smrng_lp_c.smrng_lp_passes.
    split.
    + intros H. rewrite (H0 H). split; [f_equal; lra|reflexivity].
    + intros Ha Hb. rewrite (H1 Ha Hb). split; [f_equal; lra|reflexivity].
Qed.


(** X6.  Whatever the arguments, the integration loop of a call makes no
    pass, or one pass with the full integrand ([isw = 1]), or a pass with
    [isw = 0] over [[ruq, su]] followed by a pass with [isw = 1] over
    [[sl, ruq]], where [sl < ruq < su]: the full integrand is integrated
    exactly once whenever anything is integrated, and the two segments are
    adjacent. *)
Theorem smrng_lp_passes_shape (q : R) (k df nrng : Z) :
  smrng_lp_passes q k df nrng = [] \/
  (exists sl su, smrng_lp_passes q k df nrng = [mkpass 1 sl su]) \/
  (exists sl ruq su,
     sl < ruq < su /\
     smrng_lp_passes q k df nrng = [mkpass 0 ruq su; mkpass 1 sl ruq]).
Proof.
  unfold smrng_lp_c.smrng_lp_passes, smrng_lp_c.smrng_lp_run. cbv zeta.
  destruct (q <=? 0.0); [now left|].
  destruct (df <=? 0)%Z; [now left|].
  destruct (chi2l df) as [c2l|]; [|now left].
  destruct (chi2u df) as [c2u|]; [|now left].
  destruct (_ >=? _); [now left|].
  rewrite lower_limit_max.
  destruct (_ <=? Rmax _ _) eqn:H1; [now left|].
  destruct (_ <? sqrt (c2u / IZR df)) eqn:H2; Rcmp.
  - right. right.
    cbn [v_isw Z.sub Z.opp Z.add Z.to_nat Pos.to_nat Pos.iter_op Nat.add].
    rewrite loop_from_0. cbn [v_passes].
    eexists _, _, _. split; [|reflexivity]. lra.
  - right. left.
    cbn [v_isw Z.sub Z.opp Z.add Z.to_nat Pos.to_nat Pos.iter_op Nat.add
         Z.pos_sub Z.succ_double Z.pred_double Z.double Pos.pred_double].
    rewrite loop_from_1. cbn [v_passes]. now eexists _, _.
Qed.

End smrng_lp_more.

(** *** The limits of the chi-square distribution *)










(** *** The coefficient of the chi distribution *)

Lemma coef_loop_shift (fuel : nat) : forall n g c,
  smrng_lp_c.coef_loop fuel n (g + c) = smrng_lp_c.coef_loop fuel n g + c.
Proof.
  induction fuel as [|fuel IH]; intros n g c; simpl; [reflexivity|].
  destruct (n >? 0)%Z; [|reflexivity].
  rewrite <- IH. f_equal. lra.
Qed.

(** X8.  The logarithm [g] that [coef] subtracts in its exponent is
    [log(sqrt(pi))] for [df = 1] and 0 for [df = 2], and going from [df] to
    [df + 2] adds [log(df/2)] to it: the recurrence of the logarithm of the
    gamma function at [df/2], for odd and even [df] alike. *)
Theorem coef_recurrence (df : Z) :
  (1 <= df)%Z ->
  exists g,
    smrng_lp_c.coef df
    = 2.0 * exp (0.5 * IZR df * (log (0.5 * IZR df) - 1.0) - g) /\
    smrng_lp_c.coef (df + 2)
    = 2.0 * exp (0.5 * IZR (df + 2) * (log (0.5 * IZR (df + 2)) - 1.0)
                 - (g + log (0.5 * IZR df))) /\
    (df = 1%Z -> g = smrng_lp_c.LOGSQRTPI) /\
    (df = 2%Z -> g = 0).
Proof.
  intros Hdf.
  set (g0 := if (Z.rem df 2 =? 1)%Z then smrng_lp_c.LOGSQRTPI else 0.0).
  exists (smrng_lp_c.coef_loop (Z.to_nat df) (df - 2) g0).
  split; [reflexivity|]. split; [|split].
  - unfold smrng_lp_c.coef. cbv zeta.
    replace (Z.rem (df + 2) 2) with (Z.rem df 2)
      by (symmetry; apply (Z.rem_add df 1 2); nia).
    fold g0. do 3 f_equal.
    replace (Z.to_nat (df + 2)) with (S (Z.to_nat (df + 1))) by lia.
    replace (df + 2 - 2)%Z with df by lia.
    simpl smrng_lp_c.coef_loop.
    replace (df >? 0)%Z with true
      by (symmetry; rewrite Z.gtb_ltb; apply Z.ltb_lt; lia).
    rewrite coef_loop_shift.
    now rewrite (coef_loop_fuel (Z.to_nat (df + 1)) _ _ (Z.to_nat df))
      by lia.
  - intros ->. reflexivity.
  - intros ->. unfold g0. simpl. lra.
Qed.

Lemma coef_recurrence_witness :
  (1 <= 3)%Z /\
  exists g,
    smrng_lp_c.coef 3
    = 2.0 * exp (0.5 * IZR 3 * (log (0.5 * IZR 3) - 1.0) - g) /\
    smrng_lp_c.coef (3 + 2)
    = 2.0 * exp (0.5 * IZR (3 + 2) * (log (0.5 * IZR (3 + 2)) - 1.0)
                 - (g + log (0.5 * IZR 3))).
Proof.
  split; [lia|].
  destruct (coef_recurrence 3 ltac:(lia)) as (g & H3 & H5 & _).
  exists g. split; [exact H3|exact H5].
Defined.

(** *** The limits of the range *)

(** X9.  For a single range ([nrng <= 1]) and [k >= 2] the upper limit
    [rupper] exceeds 10.465, and for [k <= 40] the lower limit [rlower] lies
    strictly between 0 and 9: the lower limit is below the upper one, so
    for no [q > 0] can both early returns of [smrng_lp] apply. *)
Theorem single_range_limits (k nrng : Z) :
  (nrng <= 1)%Z -> (2 <= k)%Z ->
  10.465 < smrng_lp_c.rupper k nrng /\
  ((k <= 40)%Z ->
     0 < smrng_lp_c.rlower k nrng < 9 /\
     smrng_lp_c.rlower k nrng < smrng_lp_c.rupper k nrng).
Proof.
  intros Hn Hk. apply IZR_le in Hk.
  assert (Hu : 10.465 < smrng_lp_c.rupper k nrng).
  { unfold smrng_lp_c.rupper. cbv zeta.
    replace (nrng <=? 1)%Z with true by (symmetry; apply Z.leb_le; lia).
    assert (Hl : 0 < log (IZR k - 0.5)) by (apply log_pos; lra).
    rewrite (pow_fractional _ 0.9 0) by lra.
    pose proof (Rpower_pos (log (IZR k - 0.5)) 0.9). lra. }
  split; [exact Hu|]. intros Hk40.
  assert (Hl : 0 < smrng_lp_c.rlower k nrng < 9); [|split; [exact Hl|lra]].
  unfold smrng_lp_c.rlower. cbv zeta.
  replace (k <=? 40)%Z with true by (symmetry; apply Z.leb_le; lia).
  replace (nrng <=? 1)%Z with true by (symmetry; apply Z.leb_le; lia).
  assert (Hl : 0 < log (IZR k + 0.5)) by (apply log_pos; lra).
  rewrite (pow_fractional _ 2.1 2) by lra.
  pose proof (Rpower_pos (log (IZR k + 0.5)) 2.1) as Hp.
  split; [apply exp_pos|].
  apply Rlt_le_trans with (exp 2); [|apply exp_2_le_9].
  apply exp_increasing.
  assert (0 < 27.12 / Rpower (log (IZR k + 0.5)) 2.1)
    by (apply Rdiv_lt_0_compat; lra).
  lra.
Qed.

Lemma single_range_limits_witness :
  ((1 <= 1)%Z /\ (2 <= 7)%Z /\ (7 <= 40)%Z) /\
  10.465 < smrng_lp_c.rupper 7 1 /\
  0 < smrng_lp_c.rlower 7 1 < 9 /\
  smrng_lp_c.rlower 7 1 < smrng_lp_c.rupper 7 1.
Proof.
  split; [lia|].
  destruct (single_range_limits 7 1 ltac:(lia) ltac:(lia)) as [Hu Hl].
  split; [exact Hu|]. apply Hl. lia.
Defined.

(** *** Calls on the other paths *)

Lemma exp_3_le_27 : exp 3 <= 27.
Proof.
  replace 3 with (1 + 1 + 1) by lra. rewrite !exp_plus.
  pose proof exp_le_3. pose proof (exp_pos 1).
  assert (exp 1 * exp 1 <= 9) by nra. nra.
Qed.

(** [rlower(1000, 1)] is at least 1.8: [log 1010 > 6], [log 6 > 1.5], and
    [x^0.012 >= 1 + 0.012 log x]. *)
Lemma sample_rlower_1000 : 1.8 <= smrng_lp_c.rlower 1000 1.
Proof.
  unfold smrng_lp_c.rlower. cbv zeta.
  change (1000 <=? 40)%Z with false. change (1 <=? 1)%Z with true.
  cbv iota.
  pose proof exp_3_le_27 as H3. pose proof (exp_pos 3) as H3p.
  assert (H6 : 6 < log (IZR 1000 + 10.0)).
  { unfold log. rewrite <- (ln_exp 6) at 1.
    apply ln_increasing; [apply exp_pos|].
    replace 6 with (3 + 3) by lra. rewrite exp_plus. nra. }
  assert (H15 : 1.5 < ln 6).
  { rewrite <- (ln_exp 1.5) at 1. apply ln_increasing; [apply exp_pos|].
    pose proof (exp_pos 1.5) as Hp.
    assert (E : exp 1.5 * exp 1.5 = exp 3)
      by (rewrite <- exp_plus; f_equal; lra).
    destruct (Rlt_le_dec (exp 1.5) 6) as [H|H]; [exact H|]. nra. }
  assert (Hll : 1.5 < ln (log (IZR 1000 + 10.0))).
  { apply Rlt_trans with (ln 6); [exact H15|].
    apply ln_increasing; lra. }
  rewrite (pow_fractional _ 0.012 0) by lra.
  unfold Rpower.
  pose proof (exp_ineq1_le (0.012 * ln (log (IZR 1000 + 10.0)))). lra.
Qed.

Lemma sample_sl_su :
  6e-14 <= sqrt (3.926e-27 / IZR 1) < 1 /\ 7.5 < sqrt (56.73 / IZR 1) <= 8.
Proof.
  repeat split.
  - rewrite <- (sqrt_square 6e-14) by lra. apply sqrt_le_1_alt. lra.
  - apply Rlt_le_trans with (sqrt 1); [|rewrite sqrt_1; lra].
    apply sqrt_lt_1_alt. lra.
  - rewrite <- (sqrt_square 7.5) by lra. apply sqrt_lt_1_alt. lra.
  - rewrite <- (sqrt_square 8) by lra. apply sqrt_le_1_alt. lra.
Qed.

Lemma smrng_lp_early_returns_witness :
  let rng_lp := program.rng_lp (nrml_p_c.nrml_p sample.Phi) in
  smrng_lp_c.smrng_lp rng_lp 0 3 10 1 = Some 0 /\
  smrng_lp_c.smrng_lp rng_lp 0.1 1000 1 1 = Some 0 /\
  smrng_lp_c.smrng_lp rng_lp 1e15 2 1 1 = Some 1.
Proof.
  intros rng_lp.
  destruct sample_chi2 as [Hl Hu].
  destruct sample_sl_su as [[Hsl1 Hsl2] [Hsu1 Hsu2]].
  pose proof sample_rlower_1000 as Hr1000.
  pose proof sample_rlower as Hrl. pose proof sample_rupper as Hru.
  split; [|split].
  - destruct (smrng_lp_early_returns rng_lp 0 3 10 1 0 0) as [H _].
    apply H. lra.
  - destruct (smrng_lp_early_returns rng_lp 0.1 1000 1 1 3.926e-27 56.73)
      as [_ H].
    destruct (H ltac:(lra) ltac:(lia) Hl Hu) as [H0 _].
    apply H0. lra.
  - destruct (smrng_lp_early_returns rng_lp 1e15 2 1 1 3.926e-27 56.73)
      as [_ H].
    destruct (H ltac:(lra) ltac:(lia) Hl Hu) as [_ H1].
    apply H1; [lra|].
    pose proof (Rmax_l (sqrt (3.926e-27 / IZR 1))
                  (smrng_lp_c.rlower 2 1 / 1e15)). lra.
Defined.

(** ** smrng_lq *)

Section smrng_lq_facts.

Import smrng_lq_c.

Variable smrng_lp : R -> Z -> Z -> Z -> R.
Variable p : R.
Variables k df nrng : Z.
Variables xeps peps : R.

#[local] Abbreviation while_body := (smrng_lq_c.while_body smrng_lp k df nrng).
#[local] Abbreviation while_loop := (smrng_lq_c.while_loop smrng_lp p k df nrng).
#[local] Abbreviation bracketing := (smrng_lq_c.bracketing smrng_lp p k df nrng).
#[local] Abbreviation trial := (smrng_lq_c.trial p xeps).
#[local] Abbreviation evaluate := (smrng_lq_c.evaluate smrng_lp p k df nrng xeps).
#[local] Abbreviation converged := (smrng_lq_c.converged p xeps peps).
#[local] Abbreviation update := (smrng_lq_c.update p).
#[local] Abbreviation for_loop := (smrng_lq_c.for_loop smrng_lp p k df nrng xeps peps).
#[local] Abbreviation rounds := (smrng_lq_c.rounds smrng_lp p k df nrng xeps).
#[local] Abbreviation tested := (smrng_lq_c.tested smrng_lp p k df nrng xeps).
#[local] Abbreviation bracket_inv := (smrng_lq_c.bracket_inv smrng_lp p k df nrng).
#[local] Abbreviation smrng_lq := (smrng_lq_c.smrng_lq smrng_lp p k df nrng xeps peps).

(** C8.  For [p <= 0] the quantile is [0.0] and for [p >= 1] it is
    [1.0e+99]; in both cases [*itr] is 0 and [smrng_lp] was not called,
    whatever the other arguments are. *)
Theorem smrng_lq_outside_unit_interval (fuel : nat) :
  (p <= 0 -> smrng_lq fuel = Some (mkresult 0.0 0 [])) /\
  (1 <= p -> smrng_lq fuel = Some (mkresult 1.0e+99 0 [])).
Proof.
  unfold smrng_lq_c.smrng_lq. split; intros Hp.
  - replace (p <=? 0.0) with true; [reflexivity|].
    symmetry. Rcmp. lra.
  - replace (p <=? 0.0) with false by (symmetry; Rcmp; lra).
    replace (p >=? 1.0) with true; [reflexivity|].
    symmetry. Rcmp. lra.
Qed.

(** *** What a call and an evaluation change *)

Lemma evaluate_fields i v :
  evaluate i v =
  mkvars (x1 v) (y1 v) (x2 v) (y2 v) (x3 v) (y3 v)
    (trial i v) (smrng_lp (trial i v) k df nrng)
    (itr v + 1) (trial i v :: calls v).
Proof. reflexivity. Qed.

Lemma update_itr v : itr (update v) = itr v.
Proof. unfold smrng_lq_c.update. destruct (y v >=? p); reflexivity. Qed.

Lemma update_calls v : calls (update v) = calls v.
Proof. unfold smrng_lq_c.update. destruct (y v >=? p); reflexivity. Qed.

Lemma update_x v : x (update v) = x v.
Proof. unfold smrng_lq_c.update. destruct (y v >=? p); reflexivity. Qed.

Lemma rounds_S m i v :
  rounds (S m) i v = update (evaluate (i + Z.of_nat m) (rounds m i v)).
Proof.
  revert i v. induction m as [|m IH]; intros i v.
  - simpl. now rewrite Z.add_0_r.
  - change (rounds (S (S m)) i v)
      with (rounds (S m) (i + 1) (update (evaluate i v))).
    rewrite IH. simpl rounds at 2.
    replace (i + 1 + Z.of_nat m)%Z with (i + Z.of_nat (S m))%Z by lia.
    reflexivity.
Qed.

Lemma rounds_itr m i v : itr (rounds m i v) = (itr v + Z.of_nat m)%Z.
Proof.
  induction m as [|m IH].
  - simpl. lia.
  - rewrite rounds_S, update_itr, evaluate_fields. simpl itr. lia.
Qed.

Lemma evaluate_counted i v : counted v -> counted (evaluate i v).
Proof.
  unfold counted. rewrite evaluate_fields. simpl. lia.
Qed.

Lemma update_counted v : counted v -> counted (update v).
Proof. unfold counted. now rewrite update_itr, update_calls. Qed.

Lemma rounds_counted m i v : counted v -> counted (rounds m i v).
Proof.
  revert i v. induction m as [|m IH]; intros i v Hv; simpl; auto.
  apply IH, update_counted, evaluate_counted, Hv.
Qed.

Lemma while_body_counted v : counted v -> counted (while_body v).
Proof. unfold counted. simpl. lia. Qed.

Lemma while_loop_counted fuel v v' :
  while_loop fuel v = Some v' -> counted v -> counted v'.
Proof.
  revert v. induction fuel as [|fuel IH]; intros v; simpl.
  - destruct (y2 v <? p); [discriminate|]. now intros [= <-].
  - destruct (y2 v <? p).
    + intros H Hv. apply (IH _ H), while_body_counted, Hv.
    + now intros [= <-].
Qed.

Lemma bracketing_counted fuel v : bracketing fuel = Some v -> counted v.
Proof.
  unfold smrng_lq_c.bracketing. simpl.
  destruct (smrng_lq_c.while_loop _ _ _ _ _ _ _) as [w|] eqn:Hw;
    [|discriminate].
  intros [= <-]. apply while_loop_counted in Hw.
  - exact Hw.
  - reflexivity.
Qed.

(** *** The [for] loop *)

#[local] Abbreviation stops_at := (smrng_lq_c.stops_at smrng_lp p k df nrng xeps peps).

(** The loop leaves at the first iteration whose test holds. *)
Lemma for_loop_break n : forall i v j,
  (j < n)%nat -> (i + Z.of_nat j < 201)%Z ->
  (forall m, (m < j)%nat ->
     converged (evaluate (i + Z.of_nat m) (rounds m i v)) = false) ->
  converged (evaluate (i + Z.of_nat j) (rounds j i v)) = true ->
  for_loop n i v = evaluate (i + Z.of_nat j) (rounds j i v).
Proof.
  induction n as [|n IH]; intros i v j Hj Hi Hbefore Hat; [lia|].
  simpl. replace (i <? 201)%Z with true by (symmetry; apply Z.ltb_lt; lia).
  destruct j as [|j].
  - simpl in Hat. rewrite Z.add_0_r in Hat. rewrite Hat.
    simpl. now rewrite Z.add_0_r.
  - assert (H0 : converged (evaluate i v) = false).
    { specialize (Hbefore 0%nat). simpl in Hbefore.
      rewrite Z.add_0_r in Hbefore. apply Hbefore. lia. }
    rewrite H0.
    rewrite (IH (i + 1)%Z (update (evaluate i v)) j).
    + simpl. f_equal. lia.
    + lia.
    + lia.
    + intros m Hm. specialize (Hbefore (S m)). simpl rounds in Hbefore.
      replace (i + 1 + Z.of_nat m)%Z with (i + Z.of_nat (S m))%Z by lia.
      apply Hbefore. lia.
    + simpl rounds in Hat.
      replace (i + 1 + Z.of_nat j)%Z with (i + Z.of_nat (S j))%Z by lia.
      exact Hat.
Qed.

(** With no test holding, the loop runs all its iterations. *)
Lemma for_loop_exhaust n : forall i v,
  (i + Z.of_nat n <= 201)%Z ->
  (forall m, (m < n)%nat ->
     converged (evaluate (i + Z.of_nat m) (rounds m i v)) = false) ->
  for_loop n i v = rounds n i v.
Proof.
  induction n as [|n IH]; intros i v Hi Hnone; [reflexivity|].
  simpl. replace (i <? 201)%Z with true by (symmetry; apply Z.ltb_lt; lia).
  assert (H0 : converged (evaluate i v) = false).
  { specialize (Hnone 0%nat). simpl in Hnone.
    rewrite Z.add_0_r in Hnone. apply Hnone. lia. }
  rewrite H0. apply IH; [lia|].
  intros m Hm. specialize (Hnone (S m)). simpl rounds in Hnone.
  replace (i + 1 + Z.of_nat m)%Z with (i + Z.of_nat (S m))%Z by lia.
  apply Hnone. lia.
Qed.

Lemma tested_as_rounds v j :
  (1 <= j)%nat ->
  tested v j = evaluate (1 + Z.of_nat (j - 1)) (rounds (j - 1) 1 v).
Proof.
  intros Hj. unfold smrng_lq_c.tested.
  replace (1 + Z.of_nat (j - 1))%Z with (Z.of_nat j) by lia. reflexivity.
Qed.

Lemma tested_itr v j :
  (1 <= j)%nat -> itr (tested v j) = (itr v + Z.of_nat j)%Z.
Proof.
  intros Hj. unfold smrng_lq_c.tested. rewrite evaluate_fields. simpl itr.
  rewrite rounds_itr. lia.
Qed.

(** Some iteration ends the loop: the first whose test holds within the
    first [n], or the last one. *)
Lemma first_test v n :
  (forall i, (1 <= i <= n)%nat -> converged (tested v i) = false) \/
  (exists j, (1 <= j <= n)%nat /\ converged (tested v j) = true /\
     forall i, (1 <= i < j)%nat -> converged (tested v i) = false).
Proof.
  induction n as [|n [IH|(j & Hj & Hat & Hbefore)]].
  - left. intros i Hi. lia.
  - destruct (converged (tested v (S n))) eqn:Hn.
    + right. exists (S n). repeat split; try lia; auto.
      intros i Hi. apply IH. lia.
    + left. intros i Hi.
      destruct (Nat.eq_dec i (S n)) as [->|Hne]; auto. apply IH. lia.
  - right. exists j. repeat split; try lia; auto.
Qed.

Lemma stops_at_exists v : exists j, (1 <= j <= 200)%nat /\ stops_at v j.
Proof.
  destruct (first_test v 199) as [Hnone|(j & Hj & Hat & Hbefore)].
  - exists 200%nat. split; [lia|]. split; auto.
    intros i Hi. apply Hnone. lia.
  - exists j. split; [lia|]. split; auto.
Qed.

(** The variables the loop ends with when it ends in iteration [j]: [x],
    [*itr] and the calls are those of the trial of that iteration. *)
Lemma for_loop_stops v j :
  (1 <= j <= 200)%nat -> stops_at v j ->
  let w := for_loop 200 1 v in
  x w = x (tested v j) /\ itr w = itr (tested v j) /\
  calls w = calls (tested v j).
Proof.
  intros Hj [Hbefore Hat].
  assert (Hpre : forall m, (m < j - 1)%nat ->
            converged (evaluate (1 + Z.of_nat m) (rounds m 1 v)) = false).
  { intros m Hm. specialize (Hbefore (S m)).
    rewrite tested_as_rounds in Hbefore by lia.
    replace (S m - 1)%nat with m in Hbefore by lia. apply Hbefore. lia. }
  destruct (converged (tested v j)) eqn:Hc.
  - cbv zeta. rewrite (for_loop_break 200 1 v (j - 1)); try lia; auto.
    + rewrite <- tested_as_rounds by lia. auto.
    + rewrite <- tested_as_rounds by lia. exact Hc.
  - destruct Hat as [Hat| ->]; [discriminate|].
    cbv zeta. rewrite for_loop_exhaust.
    + change 200%nat with (S 199) at 1. rewrite rounds_S.
      rewrite update_x, update_itr, update_calls.
      rewrite tested_as_rounds by lia. auto.
    + lia.
    + intros m Hm. destruct (Nat.eq_dec m 199) as [->|Hne].
      * rewrite tested_as_rounds in Hc by lia. exact Hc.
      * apply Hpre. lia.
Qed.

Lemma converged_iff v :
  converged v = true <->
  fabs (x2 v - x1 v) < xeps /\ fabs (y v - p) < peps.
Proof.
  unfold smrng_lq_c.converged. rewrite andb_true_iff.
  now rewrite !Rltb_true.
Qed.

(** C7.  For [0 < p < 1] and a bracket [v0], the [for] loop always ends, in
    one iteration [j] of its 200, and [smrng_lq] returns the trial abscissa
    of iteration [j] with [*itr] grown by [j], exactly when no earlier test
    [fabs(x2 - x1) < xeps && fabs(y - p) < peps] held and either the test of
    iteration [j] holds or [j] is 200.  Nothing but [*itr], the number of
    calls of [smrng_lp], tells the two ends apart. *)
Theorem smrng_lq_stops (fuel : nat) (v0 : vars) :
  0 < p < 1 ->
  bracketing fuel = Some v0 ->
  (exists j, (1 <= j <= 200)%nat /\ stops_at v0 j) /\
  (forall j, (1 <= j <= 200)%nat ->
     stops_at v0 j <->
     smrng_lq fuel =
       Some (mkresult (trial (Z.of_nat j) (rounds (j - 1) 1 v0))
               (itr v0 + Z.of_nat j) (calls (tested v0 j)))) /\
  (forall r, smrng_lq fuel = Some r ->
     iterations r = Z.of_nat (length (evaluations r))) /\
  (forall v, converged v = true <->
     fabs (x2 v - x1 v) < xeps /\ fabs (y v - p) < peps).
Proof.
  intros Hp Hb.
  assert (Hlq : forall j, (1 <= j <= 200)%nat -> stops_at v0 j ->
            smrng_lq fuel =
              Some (mkresult (trial (Z.of_nat j) (rounds (j - 1) 1 v0))
                      (itr v0 + Z.of_nat j) (calls (tested v0 j)))).
  { intros j Hj Hs. unfold smrng_lq_c.smrng_lq.
    replace (p <=? 0.0) with false by (symmetry; Rcmp; lra).
    replace (p >=? 1.0) with false by (symmetry; Rcmp; lra).
    rewrite Hb.
    destruct (for_loop_stops v0 j Hj Hs) as (Hx & Hi & Hc).
    rewrite Hx, Hi, Hc, tested_itr by lia. reflexivity. }
  split; [|split; [|split; [|apply converged_iff]]].
  - apply stops_at_exists.
  - intros j Hj. split; [apply Hlq, Hj|].
    intros Hr.
    destruct (stops_at_exists v0) as (j' & Hj' & Hs').
    rewrite (Hlq j' Hj' Hs') in Hr. injection Hr as _ Hitr _.
    assert (j' = j) by lia. now subst j'.
  - intros r Hr.
    destruct (stops_at_exists v0) as (j & Hj & Hs).
    rewrite (Hlq j Hj Hs) in Hr. injection Hr as <-. simpl.
    rewrite <- tested_itr by lia.
    apply evaluate_counted, rounds_counted, (bracketing_counted fuel), Hb.
Qed.

(** *** The bracketing phase *)

Lemma while_body_fields v :
  while_body v =
  mkvars (x2 v) (y2 v) (x2 v * 2.0) (smrng_lp (x2 v * 2.0) k df nrng)
    (x3 v) (y3 v) (x v) (y v) (itr v + 1) (x2 v * 2.0 :: calls v).
Proof. reflexivity. Qed.

(** [n] passes of the [while] loop: the upper end has been doubled [n]
    times, and the lower end is the upper end of one pass before. *)
Lemma while_passes n : forall v,
  y2 v = smrng_lp (x2 v) k df nrng ->
  let w := Nat.iter n while_body v in
  x2 w = x2 v * 2 ^ n /\
  y2 w = smrng_lp (x2 v * 2 ^ n) k df nrng /\
  (x1 w, y1 w) = match n with
                 | O => (x1 v, y1 v)
                 | S n' => (x2 v * 2 ^ n', smrng_lp (x2 v * 2 ^ n') k df nrng)
                 end /\
  x3 w = x3 v /\ y3 w = y3 v /\
  itr w = (itr v + Z.of_nat n)%Z.
Proof.
  induction n as [|n IH]; intros v Hv.
  - simpl. rewrite Rmult_1_r, Z.add_0_r. repeat split; auto.
  - destruct (IH v Hv) as (Hx2 & Hy2 & _ & Hx3 & Hy3 & Hitr).
    cbv zeta. change (Nat.iter (S n) while_body v)
      with (while_body (Nat.iter n while_body v)).
    rewrite while_body_fields. cbn [x1 y1 x2 y2 x3 y3 itr].
    rewrite Hx2, Hy2, Hitr.
    replace (x2 v * 2 ^ n * 2.0) with (x2 v * 2 ^ S n) by (simpl; lra).
    repeat split; auto. lia.
Qed.

(** The [while] loop leaves after the first doubling that reaches [p]. *)
Lemma while_loop_passes n : forall fuel v,
  (n <= fuel)%nat ->
  y2 v = smrng_lp (x2 v) k df nrng ->
  (forall m, (m < n)%nat -> smrng_lp (x2 v * 2 ^ m) k df nrng < p) ->
  p <= smrng_lp (x2 v * 2 ^ n) k df nrng ->
  while_loop fuel v = Some (Nat.iter n while_body v).
Proof.
  induction n as [|n IH]; intros fuel v Hfuel Hv Hbelow Hreach.
  - simpl in Hreach. rewrite Rmult_1_r, <- Hv in Hreach.
    destruct fuel; simpl;
      (replace (y2 v <? p) with false by (symmetry; Rcmp; lra));
      reflexivity.
  - destruct fuel as [|fuel]; [lia|]. simpl while_loop.
    replace (y2 v <? p) with true.
    2:{ symmetry. Rcmp. rewrite Hv. specialize (Hbelow 0%nat).
        simpl in Hbelow. rewrite Rmult_1_r in Hbelow. apply Hbelow. lia. }
    rewrite Nat.iter_succ_r. apply IH.
    + lia.
    + reflexivity.
    + intros m Hm. rewrite while_body_fields. cbn [x2].
      replace (x2 v * 2.0 * 2 ^ m) with (x2 v * 2 ^ S m) by (simpl; lra).
      apply Hbelow. lia.
    + rewrite while_body_fields. cbn [x2].
      replace (x2 v * 2.0 * 2 ^ n) with (x2 v * 2 ^ S n) by (simpl; lra).
      exact Hreach.
Qed.

Lemma bracketing_unfold fuel :
  bracketing fuel =
  match while_loop fuel
          (mkvars 0.0 0.0 2.0 (smrng_lp 2.0 k df nrng) 0 0 0 0 1 [2.0]) with
  | None => None
  | Some v =>
      Some (mkvars (x1 v) (y1 v) (x2 v) (y2 v) (x2 v) (y2 v) (x v) (y v)
              (itr v) (calls v))
  end.
Proof. reflexivity. Qed.

(** The seed is the upper end of the bracket, whenever the phase ends. *)
Lemma seed_is_upper_end fuel v :
  bracketing fuel = Some v -> x3 v = x2 v /\ y3 v = y2 v.
Proof.
  rewrite bracketing_unfold.
  destruct (smrng_lq_c.while_loop _ _ _ _ _ _ _) as [w|]; [|discriminate].
  intros [= <-]. simpl. auto.
Qed.

(** C9 (amended).  For a target reached first by the [n]-th doubling
    (the probabilities at 2, 4, ..., 2^n are below [p], the one at 2^(n+1)
    is not), and [fuel] for [n] passes, the bracketing phase ends with
    [x2 = 2^(n+1)] and [y2] its probability; the seed [(x3, y3)] is this upper
    end [(x2, y2)], the point after the last doubling.  The point held before
    the last doubling is the lower end [(x1, y1)], which is [(0, 0)] when
    nothing was doubled.  [smrng_lp] was called [n + 1] times. *)
Theorem bracketing_seed (n fuel : nat) :
  (n <= fuel)%nat ->
  (forall m, (m < n)%nat -> smrng_lp (2 * 2 ^ m) k df nrng < p) ->
  p <= smrng_lp (2 * 2 ^ n) k df nrng ->
  exists v,
    bracketing fuel = Some v /\
    x2 v = 2 * 2 ^ n /\
    y2 v = smrng_lp (2 * 2 ^ n) k df nrng /\
    x3 v = x2 v /\ y3 v = y2 v /\
    (x1 v, y1 v) = match n with
                   | O => (0, 0)
                   | S n' => (2 * 2 ^ n', smrng_lp (2 * 2 ^ n') k df nrng)
                   end /\
    itr v = Z.of_nat (n + 1).
Proof.
  intros Hfuel Hbelow Hreach.
  rewrite bracketing_unfold.
  set (v1 := mkvars 0.0 0.0 2.0 _ 0 0 0 0 1 [2.0]).
  assert (H2 : 2.0 = 2) by lra.
  assert (Hv1 : y2 v1 = smrng_lp (x2 v1) k df nrng) by reflexivity.
  rewrite (while_loop_passes n fuel v1 Hfuel Hv1).
  - destruct (while_passes n v1 Hv1) as (Hx2 & Hy2 & H1 & _ & _ & Hitr).
    assert (Hx : x2 v1 = 2) by (simpl; lra).
    rewrite Hx in Hx2, Hy2, H1.
    eexists. split; [reflexivity|]. cbn [x1 y1 x2 y2 x3 y3 itr].
    rewrite Hx2, Hy2, Hitr, H1. repeat split.
    + destruct n; [|reflexivity]. simpl. f_equal; lra.
    + simpl itr. lia.
  - intros m Hm. subst v1. cbn [x2]. rewrite H2. auto.
  - subst v1. cbn [x2]. rewrite H2. auto.
Qed.

(** *** The bracket invariant *)

#[local] Abbreviation bracket_pre := (smrng_lq_c.bracket_pre smrng_lp p k df nrng).

Lemma while_loop_inv fuel : forall v w,
  while_loop fuel v = Some w -> bracket_pre v -> bracket_inv w.
Proof.
  assert (Hexit : forall v, (y2 v <? p) = false -> bracket_pre v ->
            bracket_inv v).
  { intros v Hc (H12 & _ & Hy1 & Hl1 & Hl2). Rcmp.
    repeat split; auto. }
  induction fuel as [|fuel IH]; intros v w; simpl;
    destruct (y2 v <? p) eqn:Hc; try discriminate.
  - intros [= <-]. now apply Hexit.
  - intros Hw (H12 & H2 & Hy1 & Hl1 & Hl2). apply (IH _ _ Hw). Rcmp.
    rewrite while_body_fields. unfold smrng_lq_c.bracket_pre. cbn [x1 y1 x2 y2].
    repeat split; auto; lra.
  - intros [= <-]. now apply Hexit.
Qed.

Lemma bracketing_inv fuel v :
  0 < p -> bracketing fuel = Some v -> bracket_inv v.
Proof.
  intros Hp. rewrite bracketing_unfold.
  destruct (smrng_lq_c.while_loop _ _ _ _ _ _ _) as [w|] eqn:Hw;
    [|discriminate].
  intros [= <-]. apply while_loop_inv in Hw.
  - exact Hw.
  - unfold smrng_lq_c.bracket_pre. cbn [x1 y1 x2 y2]. repeat split; lra.
Qed.

(** The root of the interpolating quadratic lies above [x1]: for a positive
    curvature the numerator [-b + sqrt(...)] is positive, and otherwise the
    slope [b] is. *)
Lemma interpolation_above_x1 v :
  x1 v < x2 v -> y1 v < p <= y2 v ->
  x1 v < interpolation p xeps v.
Proof.
  intros H12 [Hy1 Hy2]. unfold smrng_lq_c.interpolation. cbv zeta.
  set (a := curvature xeps v).
  set (b := (y2 v - y1 v) / (x2 v - x1 v) - a * (x2 v - x1 v)).
  destruct (a >? 0.0) eqn:Ha; Rcmp.
  - assert (Hd : b * b < b * b + 4.0 * a * (p - y1 v)) by nra.
    assert (Hs : Rabs b < sqrt (b * b + 4.0 * a * (p - y1 v))).
    { rewrite <- sqrt_Rsqr_abs. apply sqrt_lt_1_alt. unfold Rsqr. nra. }
    assert (Hb : b <= Rabs b) by apply Rle_abs.
    assert (0 < (- b + sqrt (b * b + 4.0 * a * (p - y1 v))) / (2.0 * a)).
    { apply Rdiv_lt_0_compat; lra. }
    lra.
  - assert (Hslope : 0 < (y2 v - y1 v) / (x2 v - x1 v)).
    { apply Rdiv_lt_0_compat; lra. }
    assert (Hb : 0 < b) by (unfold b; nra).
    assert (Hs : 0 <= sqrt (b * b + 4.0 * a * (p - y1 v))) by apply sqrt_pos.
    assert (0 < 2.0 * (p - y1 v)
                / (b + sqrt (b * b + 4.0 * a * (p - y1 v)))).
    { apply Rdiv_lt_0_compat; lra. }
    lra.
Qed.

(** On a bracket with [x1 < x2] and [y1 < p <= y2], and for [xeps > 0], the
    interpolation divides by nothing that is 0 and takes the square root of
    nothing negative: lines 93 to 98 compute in the model what they compute
    in C. *)
Lemma interpolation_well_defined v :
  0 < xeps -> x1 v < x2 v -> y1 v < p <= y2 v ->
  let a := curvature xeps v in
  let b := (y2 v - y1 v) / (x2 v - x1 v) - a * (x2 v - x1 v) in
  x2 v - x1 v <> 0 /\
  (a <> 0 -> x3 v - x1 v <> 0 /\ x3 v - x2 v <> 0) /\
  0 <= b * b + 4.0 * a * (p - y1 v) /\
  (0 < a -> 2.0 * a <> 0) /\
  (a <= 0 -> 0 < b + sqrt (b * b + 4.0 * a * (p - y1 v))).
Proof.
  intros He H12 [Hy1 Hy2] a b.
  set (h := x2 v - x1 v) in *. set (s := (y2 v - y1 v) / h) in *.
  assert (Hh : 0 < h) by (unfold h; lra).
  assert (Hsh : s * h = y2 v - y1 v) by (unfold s; field; lra).
  assert (Hs : 0 < s) by (unfold s; apply Rdiv_lt_0_compat; lra).
  assert (Hd : 0 <= b * b + 4.0 * a * (p - y1 v)).
  { destruct (Rle_lt_dec a 0) as [Ha|Ha].
    - assert (H1 : 0 <= - a * (s * h - (p - y1 v)))
        by (apply Rmult_le_pos; lra).
      assert (H2 : 0 <= (s + a * h) * (s + a * h))
        by apply Rle_0_sqr.
      replace (b * b + 4.0 * a * (p - y1 v))
        with ((s + a * h) * (s + a * h)
              + 4 * (- a * (s * h - (p - y1 v))))
        by (unfold b; fold h; fold s; lra).
      lra.
    - assert (0 <= b * b) by apply Rle_0_sqr.
      assert (0 <= a * (p - y1 v)) by (apply Rmult_le_pos; lra).
      lra. }
  split; [lra|]. split; [|split; [exact Hd|split]].
  - intros Ha. unfold a, smrng_lq_c.curvature in Ha.
    destruct (_ || _) eqn:Hc; [lra|].
    apply orb_false_iff in Hc. destruct Hc as [Hc1 Hc3]. Rcmp.
    unfold fabs in Hc1, Hc3.
    split; intros E.
    + replace (x1 v - x3 v) with 0 in Hc1 by lra.
      rewrite Rabs_R0 in Hc1. lra.
    + replace (x2 v - x3 v) with 0 in Hc3 by lra.
      rewrite Rabs_R0 in Hc3. lra.
  - intros Ha. lra.
  - intros Ha. assert (Hb : 0 < b) by (unfold b; nra).
    pose proof (sqrt_pos (b * b + 4.0 * a * (p - y1 v))). lra.
Qed.

(** The trial point lies in the bracket, above its lower end. *)
Lemma trial_in_bracket i v :
  x1 v < x2 v -> y1 v < p <= y2 v ->
  x1 v < trial i v <= x2 v.
Proof.
  intros H12 Hy. unfold smrng_lq_c.trial, smrng_lq_c.bisection.
  destruct (_ || _); [lra|]. cbv zeta.
  destruct (_ || _) eqn:Hout; [lra|].
  apply orb_false_iff in Hout. destruct Hout as [_ Hup]. Rcmp.
  split; [now apply interpolation_above_x1|lra].
Qed.

(** One iteration keeps the invariant. *)
Lemma update_inv i v :
  bracket_inv v -> bracket_inv (update (evaluate i v)).
Proof.
  intros (H12 & Hy & Hl1 & Hl2).
  destruct (trial_in_bracket i v H12 Hy) as [Hlo Hup].
  rewrite evaluate_fields. unfold smrng_lq_c.update. cbn [x1 y1 x2 y2 x y].
  destruct (_ >=? p) eqn:Hc; Rcmp; unfold smrng_lq_c.bracket_inv;
    cbn [x1 y1 x2 y2].
  - repeat split; auto; lra.
  - repeat split; auto; try lra.
    destruct Hup as [Hup|Hup]; [exact Hup|].
    rewrite Hup, <- Hl2 in Hc. lra.
Qed.


Lemma rounds_inv m : forall i v, bracket_inv v -> bracket_inv (rounds m i v).
Proof.
  induction m as [|m IH]; intros i v Hv; simpl; auto.
  apply IH, update_inv, Hv.
Qed.


(** *** The trial point of an even iteration *)

Lemma trial_even i v :
  Z.rem i 2 <> 1%Z -> YEPS <= fabs (y2 v - y1 v) ->
  trial i v =
  if (interpolation p xeps v <? x1 v) || (interpolation p xeps v >? x2 v)
  then bisection v else interpolation p xeps v.
Proof.
  intros Hi Hy. unfold smrng_lq_c.trial.
  replace (Z.rem i 2 =? 1)%Z with false by (symmetry; now apply Z.eqb_neq).
  replace (fabs (y2 v - y1 v) <? YEPS) with false by (symmetry; Rcmp; lra).
  reflexivity.
Qed.

Lemma curvature_coincident v :
  fabs (x1 v - x3 v) < xeps \/ fabs (x2 v - x3 v) < xeps ->
  curvature xeps v = 0.
Proof.
  intros H. unfold smrng_lq_c.curvature.
  replace (_ || _) with true; [lra|].
  symmetry. apply orb_true_iff. destruct H; [left|right]; now Rcmp.
Qed.

(** With the curvature 0 the interpolation is linear. *)
Lemma interpolation_coincident v :
  fabs (x1 v - x3 v) < xeps \/ fabs (x2 v - x3 v) < xeps ->
  let b := (y2 v - y1 v) / (x2 v - x1 v) in
  interpolation p xeps v = x1 v + 2 * (p - y1 v) / (b + sqrt (b * b)).
Proof.
  intros H. unfold smrng_lq_c.interpolation. cbv zeta.
  rewrite (curvature_coincident v H).
  replace (0 >? 0.0) with false by (symmetry; Rcmp; lra).
  f_equal. f_equal; [lra|]. f_equal; [lra|]. f_equal. lra.
Qed.

Lemma interpolation_secant v :
  fabs (x1 v - x3 v) < xeps \/ fabs (x2 v - x3 v) < xeps ->
  x1 v < x2 v -> y1 v < y2 v ->
  interpolation p xeps v
  = x1 v + (p - y1 v) * (x2 v - x1 v) / (y2 v - y1 v).
Proof.
  intros H Hx Hy. rewrite (interpolation_coincident v H). cbv zeta.
  assert (Hb : 0 < (y2 v - y1 v) / (x2 v - x1 v)).
  { apply Rdiv_lt_0_compat; lra. }
  rewrite sqrt_square by lra. field. lra.
Qed.

(** C6 (amended).  On an even iteration with [fabs(y2 - y1) >= 1e-12] the
    trial point is the bisection midpoint when the interpolated point falls
    outside [[x1, x2]], and the interpolated point otherwise.  A historical
    point [x3] within [xeps] of an end of the bracket does not select the
    bisection: it sets the curvature [a] to 0, and the interpolated point is
    then the linear one, [x1 + (p - y1)(x2 - x1)/(y2 - y1)] on a bracket with
    [x1 < x2] and [y1 < y2]. *)
Theorem trial_even_iteration (i : Z) (v : vars) :
  Z.rem i 2 <> 1%Z ->
  YEPS <= fabs (y2 v - y1 v) ->
  (interpolation p xeps v < x1 v \/ x2 v < interpolation p xeps v ->
     trial i v = 0.5 * (x1 v + x2 v)) /\
  (x1 v <= interpolation p xeps v <= x2 v ->
     trial i v = interpolation p xeps v) /\
  (fabs (x1 v - x3 v) < xeps \/ fabs (x2 v - x3 v) < xeps ->
     curvature xeps v = 0 /\
     (x1 v < x2 v -> y1 v < y2 v ->
        interpolation p xeps v
        = x1 v + (p - y1 v) * (x2 v - x1 v) / (y2 v - y1 v))).
Proof.
  intros Hi Hy. rewrite (trial_even i v Hi Hy). repeat split.
  - intros Hout. replace (_ || _) with true; [reflexivity|].
    symmetry. apply orb_true_iff. destruct Hout; [left|right]; now Rcmp.
  - intros [Hlo Hup]. replace (_ || _) with false; [reflexivity|].
    symmetry. apply orb_false_iff. split; now Rcmp.
  - now apply curvature_coincident.
  - now apply interpolation_secant.
Qed.
End smrng_lq_facts.

(** *** A run of [smrng_lq] *)

(** The bracketing phase on [sample.lp] for [p = 0.4]: the probability at 2
    is 1/3, below [p], and the probability at 4 is 1/2. *)
Lemma sample_bracketing (k df nrng : Z) :
  smrng_lq_c.bracketing sample.lp 0.4 k df nrng 1 = Some (sample.v0 k df nrng).
Proof.
  rewrite bracketing_unfold. simpl smrng_lq_c.while_loop.
  unfold sample.lp. Rdecide lra. reflexivity.
Qed.

(** The variables at the start of iteration 2 of that run: the trial 3 of
    iteration 1 had the probability 3/7, not below [p], and became [x2]. *)
Lemma sample_iteration_2 (k df nrng : Z) (xeps : R) :
  let v := smrng_lq_c.rounds sample.lp 0.4 k df nrng xeps 1 1
             (sample.v0 k df nrng) in
  smrng_lq_c.x1 v = 2 /\ smrng_lq_c.y1 v = 1 / 3 /\
  smrng_lq_c.x2 v = 3 /\ smrng_lq_c.y2 v = 3 / 7 /\
  smrng_lq_c.x3 v = 4 /\ smrng_lq_c.y3 v = 1 / 2.
Proof.
  cbv zeta. unfold smrng_lq_c.rounds. rewrite evaluate_fields.
  unfold smrng_lq_c.update, smrng_lq_c.trial, smrng_lq_c.bisection.
  change (Z.rem 1 2 =? 1)%Z with true. cbn [orb].
  unfold sample.v0, sample.lp.
  cbn [smrng_lq_c.x1 smrng_lq_c.y1 smrng_lq_c.x2 smrng_lq_c.y2
       smrng_lq_c.x3 smrng_lq_c.y3 smrng_lq_c.x smrng_lq_c.y].
  Rdecide lra.
  cbn [smrng_lq_c.x1 smrng_lq_c.y1 smrng_lq_c.x2 smrng_lq_c.y2
       smrng_lq_c.x3 smrng_lq_c.y3].
  repeat split; lra.
Qed.

Lemma smrng_lq_outside_unit_interval_witness :
  smrng_lq_c.smrng_lq sample.lp (-1) 3 10 1 1.0e-8 1.0e-8 5
    = Some (smrng_lq_c.mkresult 0.0 0 []) /\
  smrng_lq_c.smrng_lq sample.lp 1 3 10 1 1.0e-8 1.0e-8 5
    = Some (smrng_lq_c.mkresult 1.0e+99 0 []).
Proof.
  split.
  - apply (smrng_lq_outside_unit_interval sample.lp (-1)). lra.
  - apply (smrng_lq_outside_unit_interval sample.lp 1). lra.
Defined.

(** The seed of the sample run is (4, 1/2), the point after the doubling;
    the point before the doubling, (2, 1/3), is the lower end. *)
Lemma bracketing_seed_counterexample :
  exists v,
    smrng_lq_c.bracketing sample.lp 0.4 3 10 1 1 = Some v /\
    (smrng_lq_c.x1 v, smrng_lq_c.y1 v) = (2.0, sample.lp 2.0 3 10 1) /\
    smrng_lq_c.x2 v = 2.0 * 2.0 /\
    (smrng_lq_c.x3 v, smrng_lq_c.y3 v)
      <> (2.0, sample.lp 2.0 3 10 1).
Proof.
  exists (sample.v0 3 10 1). split; [apply sample_bracketing|].
  simpl. repeat split. intros [= H _]. lra.
Qed.

Lemma bracketing_seed_witness :
  exists v,
    smrng_lq_c.bracketing sample.lp 0.4 3 10 1 1 = Some v /\
    smrng_lq_c.x2 v = 2 * 2 ^ 1 /\
    smrng_lq_c.y2 v = sample.lp (2 * 2 ^ 1) 3 10 1 /\
    smrng_lq_c.x3 v = smrng_lq_c.x2 v /\
    smrng_lq_c.y3 v = smrng_lq_c.y2 v /\
    (smrng_lq_c.x1 v, smrng_lq_c.y1 v)
      = (2 * 2 ^ 0, sample.lp (2 * 2 ^ 0) 3 10 1) /\
    smrng_lq_c.itr v = Z.of_nat (1 + 1).
Proof.
  apply (bracketing_seed sample.lp 0.4 3 10 1 1 1).
  - lia.
  - intros m Hm. assert (m = 0%nat) as -> by lia.
    unfold sample.lp. simpl. lra.
  - unfold sample.lp. simpl. lra.
Defined.


Lemma smrng_lq_stops_witness :
  (0 < 0.4 < 1 /\
   smrng_lq_c.bracketing sample.lp 0.4 3 10 1 1 = Some (sample.v0 3 10 1)) /\
  (exists j, (1 <= j <= 200)%nat /\
     smrng_lq_c.stops_at sample.lp 0.4 3 10 1 1.0e-8 1.0e-8
       (sample.v0 3 10 1) j).
Proof.
  split; [split; [lra|apply sample_bracketing]|].
  apply (smrng_lq_stops sample.lp 0.4 3 10 1 1.0e-8 1.0e-8 1
           (sample.v0 3 10 1)).
  - lra.
  - apply sample_bracketing.
Defined.

(** Iteration 2 of the sample run with [xeps = 3]: [x3 = 4] is within [xeps]
    of [x2 = 3], the probabilities 1/3 and 3/7 of the ends differ by more than
    1e-12, and the trial point is the linear interpolation 2.7, not the
    midpoint 2.5. *)
Lemma trial_coincident_counterexample :
  let v := smrng_lq_c.rounds sample.lp 0.4 3 10 1 3 1 1 (sample.v0 3 10 1) in
  Z.rem 2 2 <> 1%Z /\
  smrng_lq_c.YEPS <= fabs (smrng_lq_c.y2 v - smrng_lq_c.y1 v) /\
  fabs (smrng_lq_c.x2 v - smrng_lq_c.x3 v) < 3 /\
  smrng_lq_c.trial 0.4 3 2 v = 2.7 /\
  0.5 * (smrng_lq_c.x1 v + smrng_lq_c.x2 v) = 2.5 /\
  smrng_lq_c.trial 0.4 3 2 v <> 0.5 * (smrng_lq_c.x1 v + smrng_lq_c.x2 v).
Proof.
  intros v.
  destruct (sample_iteration_2 3 10 1 3) as (H1 & H2 & H3 & H4 & H5 & H6).
  fold v in H1, H2, H3, H4, H5, H6.
  assert (Hi : Z.rem 2 2 <> 1%Z) by (vm_compute; discriminate).
  assert (Hy : smrng_lq_c.YEPS
               <= fabs (smrng_lq_c.y2 v - smrng_lq_c.y1 v)).
  { rewrite H4, H2. unfold smrng_lq_c.YEPS. Rabs_lra. }
  assert (Hc : fabs (smrng_lq_c.x2 v - smrng_lq_c.x3 v) < 3).
  { rewrite H3, H5. Rabs_lra. }
  assert (Ht : smrng_lq_c.trial 0.4 3 2 v = 2.7).
  { rewrite (trial_even 0.4 3 2 v Hi Hy).
    rewrite interpolation_secant by (auto; lra).
    rewrite H1, H2, H3, H4.
    replace (2 + (0.4 - 1 / 3) * (3 - 2) / (3 / 7 - 1 / 3)) with 2.7
      by (field_simplify; lra).
    Rdecide lra. reflexivity. }
  repeat split; auto; try lra; rewrite ?Ht, ?H1, ?H3; lra.
Qed.

Lemma trial_even_iteration_witness :
  let v := smrng_lq_c.mkvars 2 (1 / 3) 3 (3 / 7) 4 (1 / 2) 0 0 3 [] in
  (Z.rem 2 2 <> 1%Z /\ smrng_lq_c.YEPS <= fabs (3 / 7 - 1 / 3)) /\
  (fabs (2 - 4) < 3 \/ fabs (3 - 4) < 3 ->
   smrng_lq_c.curvature 3 v = 0 /\
   (2 < 3 -> 1 / 3 < 3 / 7 ->
    smrng_lq_c.interpolation 0.4 3 v
    = 2 + (0.4 - 1 / 3) * (3 - 2) / (3 / 7 - 1 / 3))).
Proof.
  intros v.
  assert (Hi : Z.rem 2 2 <> 1%Z) by (vm_compute; discriminate).
  assert (Hy : smrng_lq_c.YEPS <= fabs (3 / 7 - 1 / 3)).
  { unfold smrng_lq_c.YEPS. Rabs_lra. }
  split; [split; assumption|].
  apply (trial_even_iteration 0.4 3 2 v Hi Hy).
Defined.

(** *** The returned value *)

Section smrng_lq_more.

Import smrng_lq_c.

Variable smrng_lp : R -> Z -> Z -> Z -> R.
Variable p : R.
Variables k df nrng : Z.
Variables xeps peps : R.

#[local] Abbreviation while_body := (smrng_lq_c.while_body smrng_lp k df nrng).
#[local] Abbreviation while_loop := (smrng_lq_c.while_loop smrng_lp p k df nrng).
#[local] Abbreviation bracketing := (smrng_lq_c.bracketing smrng_lp p k df nrng).
#[local] Abbreviation trial := (smrng_lq_c.trial p xeps).
#[local] Abbreviation evaluate := (smrng_lq_c.evaluate smrng_lp p k df nrng xeps).
#[local] Abbreviation converged := (smrng_lq_c.converged p xeps peps).
#[local] Abbreviation update := (smrng_lq_c.update p).
#[local] Abbreviation for_loop := (smrng_lq_c.for_loop smrng_lp p k df nrng xeps peps).
#[local] Abbreviation rounds := (smrng_lq_c.rounds smrng_lp p k df nrng xeps).
#[local] Abbreviation tested := (smrng_lq_c.tested smrng_lp p k df nrng xeps).
#[local] Abbreviation bracket_inv := (smrng_lq_c.bracket_inv smrng_lp p k df nrng).
#[local] Abbreviation stops_at := (smrng_lq_c.stops_at smrng_lp p k df nrng xeps peps).
#[local] Abbreviation smrng_lq := (smrng_lq_c.smrng_lq smrng_lp p k df nrng xeps peps).






(** X11.  If [smrng_lq] used fewer than 200 calls after the bracketing
    phase, the returned [x] has a probability within [peps] of [p], and it
    lies in a bracket [(a, b]] narrower than [xeps] whose upper end has a
    probability of [p] at least and whose lower end has one below [p] (or is
    0). *)
Theorem quantile_accuracy (fuel : nat) (v0 : vars) (r : result) :
  0 < p < 1 ->
  bracketing fuel = Some v0 ->
  smrng_lq fuel = Some r ->
  (iterations r < itr v0 + 200)%Z ->
  fabs (smrng_lp (quantile r) k df nrng - p) < peps /\
  exists a b,
    a < quantile r <= b /\ b - a < xeps /\
    p <= smrng_lp b k df nrng /\
    (smrng_lp a k df nrng < p \/ a = 0).
Proof.
  intros Hp Hb Hr Hit.
  pose proof (bracketing_inv smrng_lp p k df nrng fuel v0
                (proj1 Hp) Hb) as Hinv.
  destruct (stops_at_exists smrng_lp p k df nrng xeps peps v0)
    as (j & Hj & Hs).
  destruct (for_loop_stops smrng_lp p k df nrng xeps peps v0 j Hj Hs)
    as (Hx & Hi & _).
  assert (Hlq : smrng_lq fuel =
                Some (mkresult (x (for_loop 200 1 v0))
                        (itr (for_loop 200 1 v0))
                        (calls (for_loop 200 1 v0)))).
  { unfold smrng_lq_c.smrng_lq.
    replace (p <=? 0.0) with false by (symmetry; Rcmp; lra).
    replace (p >=? 1.0) with false by (symmetry; Rcmp; lra).
    rewrite Hb. reflexivity. }
  cbv zeta in Hx, Hi.
  remember (for_loop 200 1 v0) as w eqn:Hw. clear Hw.
  rewrite Hlq in Hr. injection Hr as <-.
  cbn [quantile iterations] in Hit |- *.
  rewrite Hi, tested_itr in Hit by lia. rewrite Hx.
  destruct Hs as [_ [Hc|Hc]]; [|lia].
  apply converged_iff in Hc. destruct Hc as [Hcx Hcy].
  unfold smrng_lq_c.tested in *. rewrite evaluate_fields in *.
  cbn [x1 x2 x y] in *.
  set (v := rounds (j - 1) 1 v0) in *.
  assert (Hv : bracket_inv v) by (now apply rounds_inv).
  destruct Hv as (H12 & Hy & Hl1 & Hl2).
  destruct (trial_in_bracket p xeps (Z.of_nat j) v H12 Hy) as [Hlo Hup].
  split; [exact Hcy|].
  exists (x1 v), (x2 v). split; [lra|]. split.
  - unfold fabs in Hcx. rewrite Rabs_pos_eq in Hcx by lra. exact Hcx.
  - split; [rewrite <- Hl2; lra|].
    destruct Hl1 as [Hl1|[Hl1 _]]; [left; rewrite <- Hl1; lra|now right].
Qed.





(** The [while] loop does not end while no doubling reaches [p]. *)
Lemma while_loop_diverges fuel : forall v,
  y2 v = smrng_lp (x2 v) k df nrng ->
  (forall m, smrng_lp (x2 v * 2 ^ m) k df nrng < p) ->
  while_loop fuel v = None.
Proof.
  induction fuel as [|fuel IH]; intros v Hv Hbelow; simpl;
    (replace (y2 v <? p) with true
       by (symmetry; Rcmp; rewrite Hv; specialize (Hbelow 0%nat);
           simpl in Hbelow; now rewrite Rmult_1_r in Hbelow));
    [reflexivity|].
  apply IH; rewrite while_body_fields; cbn [x2 y2]; [reflexivity|].
  intros m. specialize (Hbelow (S m)).
  replace (x2 v * 2.0 * 2 ^ m) with (x2 v * 2 ^ S m) by (simpl; lra).
  exact Hbelow.
Qed.

(** X13.  For [0 < p < 1], when the probability at every doubled point
    2, 4, 8, ... is below [p], the bracketing loop never ends: [smrng_lq]
    returns for no bound on its passes. *)
Theorem smrng_lq_diverges :
  0 < p < 1 ->
  (forall m, smrng_lp (2 * 2 ^ m) k df nrng < p) ->
  forall fuel, bracketing fuel = None /\ smrng_lq fuel = None.
Proof.
  intros Hp Hbelow fuel.
  assert (Hb : bracketing fuel = None).
  { rewrite bracketing_unfold. rewrite while_loop_diverges; auto.
    cbn [x2]. intros m. replace (2.0 * 2 ^ m) with (2 * 2 ^ m) by lra.
    apply Hbelow. }
  split; [exact Hb|]. unfold smrng_lq_c.smrng_lq.
  replace (p <=? 0.0) with false by (symmetry; Rcmp; lra).
  replace (p >=? 1.0) with false by (symmetry; Rcmp; lra).
  now rewrite Hb.
Qed.

End smrng_lq_more.


(** The sample run with [xeps = 3] and [peps = 0.1] leaves the loop in its
    first iteration: the trial 3 has the probability 3/7. *)
Lemma sample_converges :
  smrng_lq_c.smrng_lq sample.lp 0.4 3 10 1 3 0.1 1
  = Some (smrng_lq_c.mkresult
            (smrng_lq_c.x
               (smrng_lq_c.evaluate sample.lp 0.4 3 10 1 3 1
                  (sample.v0 3 10 1)))
            3
            (smrng_lq_c.calls
               (smrng_lq_c.evaluate sample.lp 0.4 3 10 1 3 1
                  (sample.v0 3 10 1)))).
Proof.
  unfold smrng_lq_c.smrng_lq. Rdecide lra. rewrite sample_bracketing.
  cbv zeta.
  rewrite (for_loop_break sample.lp 0.4 3 10 1 3 0.1 200 1
             (sample.v0 3 10 1) 0).
  - reflexivity.
  - lia.
  - lia.
  - intros m Hm. lia.
  - cbn [smrng_lq_c.rounds Z.of_nat Z.add].
    rewrite evaluate_fields. unfold smrng_lq_c.converged.
    cbn [smrng_lq_c.x1 smrng_lq_c.x2 smrng_lq_c.y].
    unfold smrng_lq_c.trial, smrng_lq_c.bisection.
    change (Z.rem 1 2 =? 1)%Z with true. cbn [orb].
    unfold sample.v0, sample.lp. cbn [smrng_lq_c.x1 smrng_lq_c.x2].
    Rdecide Rabs_lra. reflexivity.
Qed.

Lemma quantile_accuracy_witness :
  exists r,
    (0 < 0.4 < 1 /\
     smrng_lq_c.bracketing sample.lp 0.4 3 10 1 1 = Some (sample.v0 3 10 1) /\
     smrng_lq_c.smrng_lq sample.lp 0.4 3 10 1 3 0.1 1 = Some r /\
     (smrng_lq_c.iterations r
      < smrng_lq_c.itr (sample.v0 3 10 1) + 200)%Z) /\
    fabs (sample.lp (smrng_lq_c.quantile r) 3 10 1 - 0.4) < 0.1.
Proof.
  eexists.
  assert (Hit : (3 < smrng_lq_c.itr (sample.v0 3 10 1) + 200)%Z)
    by (simpl; lia).
  split; [split; [lra|split; [apply sample_bracketing|
                              split; [apply sample_converges|exact Hit]]]|].
  apply (quantile_accuracy sample.lp 0.4 3 10 1 3 0.1 1 (sample.v0 3 10 1) _
           ltac:(lra) (sample_bracketing 3 10 1) sample_converges Hit).
Defined.


Lemma smrng_lq_diverges_witness :
  (0 < 0.9 < 1 /\ forall m : nat, 0.5 < 0.9) /\
  smrng_lq_c.smrng_lq (fun _ _ _ _ => 0.5) 0.9 3 10 1 1.0e-8 1.0e-8 1000
  = None.
Proof.
  split; [split; [lra|intros _; lra]|].
  apply (smrng_lq_diverges (fun _ _ _ _ => 0.5) 0.9 3 10 1 1.0e-8 1.0e-8).
  - lra.
  - intros m. lra.
Defined.

(** ** The linked program *)

Section program_facts.

Variable nrml_p : R -> Z -> R.

(** C4.  For [df <= 0] (with [k >= 2], [nrng >= 1]) and every [q],
    [smrng_lp(q, k, df, nrng)] is [pow(rng_lp(q, k), nrng)]: for [q > 0]
    it is that very expression, returned before any limit or coefficient is
    computed and with no pass of the integration loop, and for [q <= 0] both
    are 0. *)
Theorem smrng_lp_infinite_df (q : R) (k df nrng : Z) :
  (2 <= k)%Z -> (1 <= nrng)%Z -> (df <= 0)%Z ->
  program.smrng_lp nrml_p q k df nrng
    = Some (pow (program.rng_lp nrml_p q k) (IZR nrng)) /\
  program.smrng_lp_passes nrml_p q k df nrng = [] /\
  (q <= 0 -> program.smrng_lp nrml_p q k df nrng = Some 0).
Proof.
  intros Hk Hn Hdf.
  unfold program.smrng_lp, program.smrng_lp_passes,
    smrng_lp_c.smrng_lp, smrng_lp_c.smrng_lp_passes,
    smrng_lp_c.smrng_lp_run.
  cbv zeta.
  replace (df <=? 0)%Z with true by (symmetry; apply Z.leb_le; lia).
  destruct (q <=? 0.0) eqn:Hq; Rcmp.
  - unfold program.rng_lp. rewrite rng_lp_nonpositive by lra.
    rewrite pow_zero_base by lia.
    repeat split; intros; f_equal; lra.
  - repeat split. intros Hq'. lra.
Qed.

(** Every call of [smrng_lp] has a value. *)
Lemma smrng_lp_value_defined (q : R) (k df nrng : Z) :
  program.smrng_lp nrml_p q k df nrng
  = Some (program.smrng_lp_value nrml_p q k df nrng).
Proof.
  unfold program.smrng_lp_value, program.smrng_lp, smrng_lp_c.smrng_lp.
  destruct (smrng_lp_run_defined (program.rng_lp nrml_p) q k df nrng)
    as [[y|cnst v] ->]; reflexivity.
Qed.

(** [smrng_lq] calls a function that is 0 at 0, as the bracket [x1 = 0],
    [y1 = 0] of line 68 has it. *)
Lemma smrng_lp_value_at_0 (k df nrng : Z) :
  program.smrng_lp_value nrml_p 0 k df nrng = 0.
Proof.
  unfold program.smrng_lp_value, program.smrng_lp, smrng_lp_c.smrng_lp,
    smrng_lp_c.smrng_lp_run.
  cbv zeta. replace (0 <=? 0.0) with true by (symmetry; Rcmp; lra). lra.
Qed.

End program_facts.

Lemma smrng_lp_infinite_df_witness :
  let nrml_p := nrml_p_c.nrml_p sample.Phi in
  ((2 <= 3)%Z /\ (1 <= 2)%Z /\ (0 <= 0)%Z) /\
  program.smrng_lp nrml_p 3 3 0 2
    = Some (pow (program.rng_lp nrml_p 3 3) (IZR 2)) /\
  program.smrng_lp_passes nrml_p 3 3 0 2 = [] /\
  (3 <= 0 -> program.smrng_lp nrml_p 3 3 0 2 = Some 0).
Proof.
  intros nrml_p. split; [lia|].
  apply (smrng_lp_infinite_df nrml_p 3 3 0 2); lia.
Defined.

Lemma chi2_table_reads_in_bounds_witness :
  ((1 <= 3 <= 5)%Z /\ (1 <= 7)%Z /\ (-2 <= 0)%Z) /\
  smrng_lp_c.chi2l 3 = Some 3.281e-09 /\
  smrng_lp_c.chi2u 3 = Some 65.01 /\
  (exists l u, smrng_lp_c.chi2l 7 = Some l /\ smrng_lp_c.chi2u 7 = Some u) /\
  smrng_lp_c.chi2l (-2) = None /\ smrng_lp_c.chi2u (-2) = None /\
  (exists y, program.smrng_lp (nrml_p_c.nrml_p sample.Phi) 3 3 (-2) 1
             = Some y).
Proof.
  destruct (chi2_table_reads_in_bounds
              (program.rng_lp (nrml_p_c.nrml_p sample.Phi)))
    as (Htab & Hdef & Hundef & Htotal).
  split; [lia|].
  destruct (Htab 3%Z ltac:(lia)) as (_ & Hl & Hu).
  destruct (Hundef (-2)%Z ltac:(lia)) as [Hl2 Hu2].
  split; [exact Hl|]. split; [exact Hu|].
  split; [apply Hdef; lia|].
  split; [exact Hl2|]. split; [exact Hu2|]. apply Htotal.
Defined.

(** ** smrng_lq_tst.c *)

Section smrng_lq_tst_facts.

Import smrng_lq_tst_c.

Variable smrng_lq : R -> Z -> Z -> Z -> R -> R -> option (R * Z).

(** A point [t] of the way from [x0] to [x1], for [0 < t < 1]. *)
Lemma between_ends (x0 x1 t : R) :
  0 < t < 1 -> Rmin x0 x1 <= (x1 - x0) * t + x0 <= Rmax x0 x1.
Proof.
  intros Ht. unfold Rmin, Rmax. destruct (Rle_dec x0 x1); split; nra.
Qed.

(** X14.  [main] of smrng_lq_tst.c: with fewer than three arguments it
    stops at the usage line and calls nothing.  Otherwise it asks for the
    quantile at [1 - alpha] with [peps = alpha * xeps] (and [nrng = 1],
    [xeps = 1e-8] unless given) and prints it with its count; for
    [df > 240] it prints a second line, whose quantile is interpolated in
    [1/df] between those for [df = 0] (infinity) and [df = 240], lies between
    the two, and is printed with the count of the call for [df = 240]. *)
Theorem tst_main_lines (argc a1 a2 : Z) (a3 : R) (a4 : Z) (a5 : R) :
  let nrng := if (argc >=? 5)%Z then a4 else 1%Z in
  let xeps := if (argc >=? 6)%Z then a5 else 1.0e-8 in
  let quantile := fun df => smrng_lq (1.0 - a3) a1 df nrng xeps (a3 * xeps) in
  ((argc < 4)%Z -> main smrng_lq argc a1 a2 a3 a4 a5 = Usage) /\
  (forall x itr,
     (4 <= argc)%Z -> (a2 <= 240)%Z -> quantile a2 = Some (x, itr) ->
     main smrng_lq argc a1 a2 a3 a4 a5 = Printed [(itr, x)]) /\
  (forall x itr x0 itr0 x1 itr1,
     (4 <= argc)%Z -> (240 < a2)%Z ->
     quantile a2 = Some (x, itr) ->
     quantile 0%Z = Some (x0, itr0) ->
     quantile 240%Z = Some (x1, itr1) ->
     let y := (x1 - x0) * (240 / IZR a2) + x0 in
     main smrng_lq argc a1 a2 a3 a4 a5 = Printed [(itr, x); (itr1, y)] /\
     Rmin x0 x1 <= y <= Rmax x0 x1).
Proof.
  intros nrng xeps quantile. unfold main. cbv zeta. fold nrng xeps.
  split; [|split].
  - intros Hc.
    now replace (argc <? 4)%Z with true by (symmetry; apply Z.ltb_lt; lia).
  - intros x itr Hc Hdf Hq. unfold quantile in Hq.
    replace (argc <? 4)%Z with false by (symmetry; apply Z.ltb_ge; lia).
    rewrite Hq.
    now replace (a2 >? 240)%Z with false
      by (symmetry; rewrite Z.gtb_ltb; apply Z.ltb_ge; lia).
  - intros x itr x0 itr0 x1 itr1 Hc Hdf Hq Hq0 Hq1.
    unfold quantile in Hq, Hq0, Hq1.
    replace (argc <? 4)%Z with false by (symmetry; apply Z.ltb_ge; lia).
    rewrite Hq.
    replace (a2 >? 240)%Z with true
      by (symmetry; rewrite Z.gtb_ltb; apply Z.ltb_lt; lia).
    rewrite Hq0, Hq1. split.
    + do 3 f_equal. replace 240.0 with 240 by lra. reflexivity.
    + apply between_ends.
      assert (Hd : 240 < IZR a2) by (apply IZR_lt in Hdf; lra).
      split; [apply Rdiv_lt_0_compat; lra|].
      apply Rmult_lt_reg_r with (IZR a2); [lra|].
      unfold Rdiv. rewrite Rmult_assoc, Rinv_l by lra. lra.
Qed.

End smrng_lq_tst_facts.

Lemma tst_main_lines_witness :
  let smrng_lq := fun (p : R) (k df nrng : Z) (xeps peps : R) =>
                    Some (IZR df / 100 + 3, 7%Z) in
  smrng_lq_tst_c.main smrng_lq 3 5 10 0.05 1 1.0e-8 = smrng_lq_tst_c.Usage /\
  smrng_lq_tst_c.main smrng_lq 4 5 10 0.05 1 1.0e-8
    = smrng_lq_tst_c.Printed [(7%Z, IZR 10 / 100 + 3)] /\
  Rmin (IZR 0 / 100 + 3) (IZR 240 / 100 + 3)
  <= (IZR 240 / 100 + 3 - (IZR 0 / 100 + 3)) * (240 / IZR 480)
     + (IZR 0 / 100 + 3)
  <= Rmax (IZR 0 / 100 + 3) (IZR 240 / 100 + 3).
Proof.
  intros smrng_lq.
  destruct (tst_main_lines smrng_lq 3 5 10 0.05 1 1.0e-8) as (H3 & _ & _).
  destruct (tst_main_lines smrng_lq 4 5 10 0.05 1 1.0e-8) as (_ & H4 & _).
  destruct (tst_main_lines smrng_lq 4 5 480 0.05 1 1.0e-8) as (_ & _ & H5).
  split; [apply H3; lia|]. split.
  - apply H4; [lia|lia|reflexivity].
  - apply (H5 (IZR 480 / 100 + 3) 7%Z _ 7%Z _ 7%Z);
      [lia|lia|reflexivity|reflexivity|reflexivity].
Defined.

(** ** smrng_tbl.c *)

Section smrng_tbl_facts.

Import smrng_tbl_c.


















End smrng_tbl_facts.
